(** * The VolumeRestrictions scheduler plugin

    A shallow embedding of
    [pkg/scheduler/framework/plugins/volumerestrictions/volume_restrictions.go]
    and the properties its specification states about it.

    Conventions of the embedding:
    - Go's [int] is a 64-bit two's-complement integer.  It is carried as a
      [Z], and every arithmetic operation of the source is followed by
      [wrap], which reduces the exact result into the range of [int].
    - A nullable pointer field of an API struct is an [option].
    - [sets.Set[string]] is a Go map, hence a reference.  A set that only
      lives in a local variable is a [gset string]; a set that is stored in
      a [preFilterState] is an object of the [Store], named by a location.
    - [*preFilterState] is a location of the [Store] as well, so that two
      pointers to one state, and two states naming one set, can be told
      apart from copies. *)

From stdpp Require Import base numbers option list strings gmap sets.

Local Open Scope Z_scope.
Local Open Scope string_scope.

(** ** Go integers *)

Module GoInt.

Definition bits : Z := 64.
Definition modulus : Z := 2 ^ bits.
Definition min_int : Z := - 2 ^ (bits - 1).
Definition max_int : Z := 2 ^ (bits - 1) - 1.

(** The value an exact result [z] has once stored in an [int]. *)
Definition wrap (z : Z) : Z := (z + 2 ^ (bits - 1)) mod modulus - 2 ^ (bits - 1).

Definition in_range (z : Z) : Prop := min_int <= z <= max_int.

Definition add (a b : Z) : Z := wrap (a + b).
Definition mul (a b : Z) : Z := wrap (a * b).

End GoInt.

(** ** API objects

    The structs of [k8s.io/api/core/v1] are declared outside this package.
    Each record below keeps the fields the plugin reads. *)

(** Modelled from the spec: the network-block volume source of section 3
    ([v1.GCEPersistentDiskVolumeSource]): a disk name and a read-only flag. *)
Record GCEPersistentDiskVolumeSource := {
  PDName : string;
  gce_ReadOnly : bool
}.

(** Modelled from the spec: the block-storage-by-id volume source of
    section 3 ([v1.AWSElasticBlockStoreVolumeSource]).  The Go struct has a
    read-only flag too; the plugin never reads it. *)
Record AWSElasticBlockStoreVolumeSource := {
  VolumeID : string;
  aws_ReadOnly : bool
}.

(** Modelled from the spec: the network-target volume source of section 3
    ([v1.ISCSIVolumeSource]). *)
Record ISCSIVolumeSource := {
  IQN : string;
  iscsi_ReadOnly : bool
}.

(** Modelled from the spec: the distributed-block-image volume source of
    section 3 ([v1.RBDVolumeSource]). *)
Record RBDVolumeSource := {
  CephMonitors : list string;
  RBDPool : string;
  RBDImage : string;
  rbd_ReadOnly : bool
}.

(** Modelled from the spec: the reference a claim-backed volume makes to a
    claim of the pod's namespace ([v1.PersistentVolumeClaimVolumeSource]). *)
Record PersistentVolumeClaimVolumeSource := {
  ClaimName : string
}.

(** Modelled from the spec: the volume descriptor of section 3 ([v1.Volume]).
    The source tells the kinds apart by which pointer field is non-nil
    (section 9: "nullable-field presence"), so every kind is an optional
    field here.  A volume of any other kind has all five fields [None]. *)
Record Volume := {
  vol_Name : string;
  GCEPersistentDisk : option GCEPersistentDiskVolumeSource;
  AWSElasticBlockStore : option AWSElasticBlockStoreVolumeSource;
  ISCSI : option ISCSIVolumeSource;
  RBD : option RBDVolumeSource;
  PersistentVolumeClaim : option PersistentVolumeClaimVolumeSource
}.

(** Modelled from the spec: the pod volume set of section 3 ([v1.PodSpec]). *)
Record PodSpec := {
  Volumes : list Volume
}.

(** Modelled from the spec: a pod ([v1.Pod]) with its namespace, its name and
    its specification. *)
Record Pod := {
  pod_Namespace : string;
  pod_Name : string;
  Spec : PodSpec
}.

(** Modelled from the spec: the access modes of a claim
    ([v1.PersistentVolumeAccessMode], a string type). *)
Definition PersistentVolumeAccessMode := string.
Definition ReadWriteOnce : PersistentVolumeAccessMode := "ReadWriteOnce".
Definition ReadOnlyMany : PersistentVolumeAccessMode := "ReadOnlyMany".
Definition ReadWriteMany : PersistentVolumeAccessMode := "ReadWriteMany".
Definition ReadWriteOncePod : PersistentVolumeAccessMode := "ReadWriteOncePod".

(** Modelled from the spec: a claim object ([v1.PersistentVolumeClaim]) with
    its name, its namespace and its access-mode list.  The field of [Volume]
    already has the Go name, so the object type carries a suffix. *)
Record PersistentVolumeClaimObject := {
  pvc_Name : string;
  pvc_Namespace : string;
  AccessModes : list PersistentVolumeAccessMode
}.

(** Modelled from the spec: [v1helper.ContainsAccessMode], "its access-mode
    list contains the exclusive mode" (section 4.2). *)
Fixpoint ContainsAccessMode (modes : list PersistentVolumeAccessMode)
    (mode : PersistentVolumeAccessMode) : bool :=
  match modes with
  | [] => false
  | m :: modes' => if bool_decide (m = mode) then true else ContainsAccessMode modes' mode
  end.

(** Modelled from the spec: the per-pod and per-node views of the framework
    ([framework.PodInfo], [framework.NodeInfo]): "given a node, the ordered
    sequence of pods currently assigned to it" (section 6). *)
Record PodInfo := {
  pi_Pod : Pod
}.

Record NodeInfo := {
  Pods : list PodInfo
}.

(** Modelled from the spec: [framework.NewNodeInfo], the "synthetic
    single-pod node" of section 4.5 when given one pod. *)
Definition NewNodeInfo (pods : list Pod) : NodeInfo :=
  {| Pods := map (fun p => {| pi_Pod := p |}) pods |}.

(** ** The conflict matcher *)

(** Modelled from the spec: [sets.New] and [Has] of the set library
    ([k8s.io/apimachinery/pkg/util/sets]), a "lookup set" built from a list
    and probed for membership (section 4.1). *)
Definition sets_New (a : list string) : gset string := list_to_set a.

Definition sets_Has (m : gset string) (x : string) : bool := bool_decide (x ∈ m).

(** The [for _, val := range a2] loop of [haveOverlap]. *)
Fixpoint haveOverlap_probe (m : gset string) (a2 : list string) : bool :=
  match a2 with
  | [] => false
  | val :: a2' => if sets_Has m val then true else haveOverlap_probe m a2'
  end.

Definition haveOverlap (a1 a2 : list string) : bool :=
  let '(a1, a2) := if (length a2 <? length a1)%nat then (a2, a1) else (a1, a2) in
  let m := sets_New a1 in
  haveOverlap_probe m a2.

(** The body of the loop of [isVolumeConflict]: the four tests made on one
    pair ([volume], [existingVolume]), each of which returns [true] from the
    function when it succeeds. *)
Definition conflictsWith (volume existingVolume : Volume) : bool :=
  if match GCEPersistentDisk volume, GCEPersistentDisk existingVolume with
     | Some disk, Some existingDisk =>
         bool_decide (PDName disk = PDName existingDisk)
         && negb (gce_ReadOnly disk && gce_ReadOnly existingDisk)
     | _, _ => false
     end
  then true
  else if match AWSElasticBlockStore volume, AWSElasticBlockStore existingVolume with
          | Some ebs, Some existingEbs => bool_decide (VolumeID ebs = VolumeID existingEbs)
          | _, _ => false
          end
  then true
  else if match ISCSI volume, ISCSI existingVolume with
          | Some iscsi, Some existingIscsi =>
              let iqn := IQN iscsi in
              let eiqn := IQN existingIscsi in
              bool_decide (iqn = eiqn)
              && negb (iscsi_ReadOnly iscsi && iscsi_ReadOnly existingIscsi)
          | _, _ => false
          end
  then true
  else match RBD volume, RBD existingVolume with
       | Some rbd, Some existingRbd =>
           let '(mon, pool, image) := (CephMonitors rbd, RBDPool rbd, RBDImage rbd) in
           let '(emon, epool, eimage) :=
             (CephMonitors existingRbd, RBDPool existingRbd, RBDImage existingRbd) in
           haveOverlap mon emon && bool_decide (pool = epool) && bool_decide (image = eimage)
           && negb (rbd_ReadOnly rbd && rbd_ReadOnly existingRbd)
       | _, _ => false
       end.

(** The loop of [isVolumeConflict] over [pod.Spec.Volumes]. *)
Fixpoint isVolumeConflict_loop (volume : Volume) (existing : list Volume) : bool :=
  match existing with
  | [] => false
  | existingVolume :: rest =>
      if conflictsWith volume existingVolume then true
      else isVolumeConflict_loop volume rest
  end.

Definition isVolumeConflict (volume : Volume) (pod : Pod) : bool :=
  isVolumeConflict_loop volume (Volumes (Spec pod)).

Definition needsRestrictionsCheck (v : Volume) : bool :=
  bool_decide (GCEPersistentDisk v <> None)
  || bool_decide (AWSElasticBlockStore v <> None)
  || bool_decide (RBD v <> None)
  || bool_decide (ISCSI v <> None).

(** The inner loop of [satisfyVolumeConflicts] over [nodeInfo.Pods]:
    [true] when some resident pod conflicts with [v]. *)
Fixpoint conflictsOnNode (v : Volume) (pods : list PodInfo) : bool :=
  match pods with
  | [] => false
  | ev :: pods' => if isVolumeConflict v (pi_Pod ev) then true else conflictsOnNode v pods'
  end.

(** The outer loop of [satisfyVolumeConflicts] over [pod.Spec.Volumes]. *)
Fixpoint satisfyVolumeConflicts_loop (vols : list Volume) (nodeInfo : NodeInfo) : bool :=
  match vols with
  | [] => true
  | v :: vols' =>
      if negb (needsRestrictionsCheck v) then satisfyVolumeConflicts_loop vols' nodeInfo
      else if conflictsOnNode v (Pods nodeInfo) then false
      else satisfyVolumeConflicts_loop vols' nodeInfo
  end.

Definition satisfyVolumeConflicts (pod : Pod) (nodeInfo : NodeInfo) : bool :=
  satisfyVolumeConflicts_loop (Volumes (Spec pod)) nodeInfo.

(** ** Errors, statuses and hints *)

(** Modelled from the spec: the outcomes of a claim lookup other than a claim
    (section 6: [get(namespace, name) -> Claim | NotFound | Error]).  A Go
    [error] is either the not-found status error that
    [apierrors.IsNotFound] recognises, or any other error. *)
Inductive error :=
| NotFoundError (msg : string)
| OtherError (msg : string).

(** Modelled from the spec: [apierrors.IsNotFound], by which "the caller
    classifies not-found specially" (section 7). *)
Definition IsNotFound (err : error) : bool :=
  match err with
  | NotFoundError _ => true
  | OtherError _ => false
  end.

(** Modelled from the spec: [err.Error()], the text of an error. *)
Definition Error_ (err : error) : string :=
  match err with
  | NotFoundError msg => msg
  | OtherError msg => msg
  end.

(** Modelled from the spec: the status codes of the framework
    ([framework.Code]); section 6: [admit | reject(reason) | error], and the
    "distinct short-circuit outcome" of section 4.4. *)
Inductive Code :=
| Success
| Error
| Unschedulable
| UnschedulableAndUnresolvable
| Skip.

Record StatusData := {
  code : Code;
  reasons : list string;
  err : option error
}.

(** Modelled from the spec: [*framework.Status]; the nil status is success
    ("admit"), [NewStatus] makes a status of a code and its reasons
    ("reject(reason)"), [AsStatus] wraps an error ("error"). *)
Definition Status := option StatusData.

Definition NewStatus (c : Code) (rs : list string) : Status :=
  Some {| code := c; reasons := rs; err := None |}.

Definition AsStatus (e : error) : Status :=
  Some {| code := Error; reasons := []; err := Some e |}.

(** Modelled from the spec: [framework.QueueingHint], "requeue" and "skip
    requeue" of section 4.5. *)
Inductive QueueingHint :=
| QueueSkip
| Queue.

(** Modelled from the spec: [names.VolumeRestrictions], the "plugin-unique
    string" of section 6. *)
Definition Name : string := "VolumeRestrictions".
Definition preFilterStateKey : string := "PreFilter" +:+ Name.
Definition ErrReasonDiskConflict : string := "node(s) had no available disk".
Definition ErrReasonReadWriteOncePodConflict : string :=
  "node has pod using PersistentVolumeClaim with the same name and ReadWriteOncePod access mode".

(** ** The store of shared objects *)

Definition loc := positive.

(** [preFilterState]: the set is held by reference ([None] is the nil map),
    the counter by value. *)
Record preFilterState := {
  readWriteOncePodPVCs : option loc;
  conflictingPVCRefCount : Z
}.

Record Store := {
  setObjs : gmap loc (gset string);
  stateObjs : gmap loc preFilterState
}.

(** A computation on the store.  [None] is a run that does not return: a
    nil dereference, or a location that names no object. *)
Definition M (A : Type) : Type := Store -> option (A * Store).

Definition ret {A} (a : A) : M A := fun σ => Some (a, σ).

Definition bind {A B} (m : M A) (k : A -> M B) : M B :=
  fun σ => match m σ with
           | Some (a, σ') => k a σ'
           | None => None
           end.

Notation "'let*' x ':=' m 'in' k" := (bind m (fun x => k))
  (at level 10, x pattern, m at level 100, k at level 200, only parsing).

(** [*s] for [s : *preFilterState]. *)
Definition deref_state (s : option loc) : M preFilterState :=
  fun σ => match s with
           | Some l => match stateObjs σ !! l with
                       | Some st => Some (st, σ)
                       | None => None
                       end
           | None => None
           end.

(** Reading a map: a nil map reads as the empty one. *)
Definition deref_set (r : option loc) : M (gset string) :=
  fun σ => match r with
           | Some l => match setObjs σ !! l with
                       | Some pvcs => Some (pvcs, σ)
                       | None => None
                       end
           | None => Some (∅, σ)
           end.

(** [&preFilterState{...}]. *)
Definition alloc_state (st : preFilterState) : M loc :=
  fun σ => let l := fresh (dom (stateObjs σ)) in
           Some (l, {| setObjs := setObjs σ; stateObjs := <[l := st]> (stateObjs σ) |}).

(** The point where a set built in a local variable becomes an object others
    may hold. *)
Definition alloc_set (pvcs : gset string) : M loc :=
  fun σ => let l := fresh (dom (setObjs σ)) in
           Some (l, {| setObjs := <[l := pvcs]> (setObjs σ); stateObjs := stateObjs σ |}).

(** [s.conflictingPVCRefCount = c]. *)
Definition store_count (s : option loc) (c : Z) : M unit :=
  fun σ => match s with
           | Some l => match stateObjs σ !! l with
                       | Some st =>
                           Some (tt, {| setObjs := setObjs σ;
                                        stateObjs :=
                                          <[l := {| readWriteOncePodPVCs := readWriteOncePodPVCs st;
                                                    conflictingPVCRefCount := c |}]> (stateObjs σ) |})
                       | None => None
                       end
           | None => None
           end.

(** ** The cycle state *)

(** [framework.StateData] as this plugin sees it: the nil interface, a
    [*preFilterState] (possibly a nil pointer), or data of another type,
    of which only its printed form matters. *)
Inductive StateData :=
| StateDataNil
| PreFilterStateData (s : option loc)
| ForeignStateData (printed : string).

(** Modelled from the spec: [framework.CycleState], the "per-attempt keyed
    state store" of section 6, with [Read] failing on a key never written. *)
Abbreviation CycleState := (gmap string StateData).

Definition CycleState_Read (cycleState : CycleState) (key : string) : StateData + error :=
  match cycleState !! key with
  | Some c => inl c
  | None => inr (OtherError "not found")
  end.

Definition CycleState_Write (cycleState : CycleState) (key : string) (val : StateData) : CycleState :=
  <[key := val]> cycleState.

(** ** The cache entry *)

(** The loop of [conflictingPVCRefCountForPod]; [s] is dereferenced where
    the source reads [s.readWriteOncePodPVCs]. *)
Fixpoint conflictingPVCRefCountForPod_loop (s : option loc) (vols : list Volume)
    (conflicts : Z) : M Z :=
  match vols with
  | [] => ret conflicts
  | volume :: rest =>
      match PersistentVolumeClaim volume with
      | None => conflictingPVCRefCountForPod_loop s rest conflicts
      | Some src =>
          let* st := deref_state s in
          let* pvcs := deref_set (readWriteOncePodPVCs st) in
          if sets_Has pvcs (ClaimName src)
          then conflictingPVCRefCountForPod_loop s rest (GoInt.add conflicts 1)
          else conflictingPVCRefCountForPod_loop s rest conflicts
      end
  end.

Definition conflictingPVCRefCountForPod (s : option loc) (podInfo : PodInfo) : M Z :=
  conflictingPVCRefCountForPod_loop s (Volumes (Spec (pi_Pod podInfo))) 0.

Definition updateWithPod (s : option loc) (podInfo : PodInfo) (multiplier : Z) : M unit :=
  let* n := conflictingPVCRefCountForPod s podInfo in
  let* st := deref_state s in
  store_count s (GoInt.add (conflictingPVCRefCount st) (GoInt.mul multiplier n)).

Definition Clone (s : option loc) : M StateData :=
  match s with
  | None => ret StateDataNil
  | Some _ =>
      let* st := deref_state s in
      let* l := alloc_state {| readWriteOncePodPVCs := readWriteOncePodPVCs st;
                               conflictingPVCRefCount := conflictingPVCRefCount st |} in
      ret (PreFilterStateData (Some l))
  end.

(** ** The plugin and its collaborators *)

(** Modelled from the spec: the two collaborators the plugin holds
    (section 6).  [pvcLister ns name] is
    [pl.pvcLister.PersistentVolumeClaims(ns).Get(name)], the claim store;
    [sharedLister key] is [pl.sharedLister.StorageInfos().IsPVCUsedByPods(key)],
    the cluster-wide exclusive-usage index. *)
Record VolumeRestrictions := {
  pvcLister : string -> string -> PersistentVolumeClaimObject + error;
  sharedLister : string -> bool
}.

(** Modelled from the spec: [framework.GetNamespacedName], the
    "namespace-qualified claim name" of section 3. *)
Definition GetNamespacedName (namespace name : string) : string :=
  namespace +:+ "/" +:+ name.

(** The loop of [readWriteOncePodPVCsForPod]; [pvcs] is the local set the
    source grows with [Insert]. *)
Fixpoint readWriteOncePodPVCsForPod_loop (pl : VolumeRestrictions) (namespace : string)
    (ignoreNotFoundError : bool) (vols : list Volume) (pvcs : gset string)
    : gset string + error :=
  match vols with
  | [] => inl pvcs
  | volume :: rest =>
      match PersistentVolumeClaim volume with
      | None => readWriteOncePodPVCsForPod_loop pl namespace ignoreNotFoundError rest pvcs
      | Some src =>
          match pvcLister pl namespace (ClaimName src) with
          | inr err =>
              if ignoreNotFoundError && IsNotFound err
              then readWriteOncePodPVCsForPod_loop pl namespace ignoreNotFoundError rest pvcs
              else inr err
          | inl pvc =>
              if negb (ContainsAccessMode (AccessModes pvc) ReadWriteOncePod)
              then readWriteOncePodPVCsForPod_loop pl namespace ignoreNotFoundError rest pvcs
              else readWriteOncePodPVCsForPod_loop pl namespace ignoreNotFoundError rest
                     ({[pvc_Name pvc]} ∪ pvcs)
          end
      end
  end.

Definition readWriteOncePodPVCsForPod (pl : VolumeRestrictions) (pod : Pod)
    (ignoreNotFoundError : bool) : gset string + error :=
  readWriteOncePodPVCsForPod_loop pl (pod_Namespace pod) ignoreNotFoundError
    (Volumes (Spec pod)) ∅.

(** The loop of [calPreFilterState].  A Go map is ranged over in an
    unspecified order; [elements] fixes one, and the count does not depend
    on it. *)
Fixpoint calPreFilterState_loop (pl : VolumeRestrictions) (pod : Pod) (keys : list string)
    (conflictingPVCRefCount : Z) : Z :=
  match keys with
  | [] => conflictingPVCRefCount
  | pvc :: rest =>
      let key := GetNamespacedName (pod_Namespace pod) pvc in
      if sharedLister pl key
      then calPreFilterState_loop pl pod rest (GoInt.add conflictingPVCRefCount 1)
      else calPreFilterState_loop pl pod rest conflictingPVCRefCount
  end.

Definition calPreFilterState (pl : VolumeRestrictions) (pod : Pod) (pvcs : option loc)
    : M (option loc + error) :=
  let* content := deref_set pvcs in
  let conflictingPVCRefCount := calPreFilterState_loop pl pod (elements content) 0 in
  let* l := alloc_state {| readWriteOncePodPVCs := pvcs;
                           conflictingPVCRefCount := conflictingPVCRefCount |} in
  ret (inl (Some l)).

(** The loop with [break] that computes [needsCheck] in [PreFilter]. *)
Fixpoint needsCheck_loop (vols : list Volume) : bool :=
  match vols with
  | [] => false
  | v :: vols' => if needsRestrictionsCheck v then true else needsCheck_loop vols'
  end.

(** [PreFilter].  The [*framework.PreFilterResult] it returns is always nil
    and is left out; the cycle state is passed in and out. *)
Definition PreFilter (pl : VolumeRestrictions) (cycleState : CycleState) (pod : Pod)
    : M (Status * CycleState) :=
  let needsCheck := needsCheck_loop (Volumes (Spec pod)) in
  match readWriteOncePodPVCsForPod pl pod false with
  | inr err =>
      if IsNotFound err
      then ret (NewStatus UnschedulableAndUnresolvable [Error_ err], cycleState)
      else ret (AsStatus err, cycleState)
  | inl pvcs =>
      let* r := alloc_set pvcs in
      let* res := calPreFilterState pl pod (Some r) in
      match res with
      | inr err => ret (AsStatus err, cycleState)
      | inl s =>
          let* st := deref_state s in
          if negb needsCheck && bool_decide (conflictingPVCRefCount st = 0)
          then ret (NewStatus Skip [], cycleState)
          else ret (None, CycleState_Write cycleState preFilterStateKey (PreFilterStateData s))
      end
  end.

Definition dquote : string := String (Ascii.ascii_of_nat 34) EmptyString.

Definition getPreFilterState (cycleState : CycleState) : option loc + error :=
  match CycleState_Read cycleState preFilterStateKey with
  | inr _ =>
      inr (OtherError ("cannot read " +:+ dquote +:+ preFilterStateKey +:+ dquote
                       +:+ " from cycleState"))
  | inl c =>
      match c with
      | PreFilterStateData s => inl s
      | StateDataNil => inr (OtherError "<nil> convert to volumerestrictions.state error")
      | ForeignStateData printed =>
          inr (OtherError (printed +:+ " convert to volumerestrictions.state error"))
      end
  end.

Definition AddPod (pl : VolumeRestrictions) (cycleState : CycleState) (podToSchedule : Pod)
    (podInfoToAdd : PodInfo) (nodeInfo : NodeInfo) : M Status :=
  match getPreFilterState cycleState with
  | inr err => ret (AsStatus err)
  | inl state =>
      let* _ := updateWithPod state podInfoToAdd 1 in
      ret None
  end.

Definition RemovePod (pl : VolumeRestrictions) (cycleState : CycleState) (podToSchedule : Pod)
    (podInfoToRemove : PodInfo) (nodeInfo : NodeInfo) : M Status :=
  match getPreFilterState cycleState with
  | inr err => ret (AsStatus err)
  | inl state =>
      let* _ := updateWithPod state podInfoToRemove (-1) in
      ret None
  end.

Definition satisfyReadWriteOncePod (state : option loc) : M Status :=
  match state with
  | None => ret None
  | Some _ =>
      let* st := deref_state state in
      if bool_decide (0 < conflictingPVCRefCount st)
      then ret (NewStatus Unschedulable [ErrReasonReadWriteOncePodConflict])
      else ret None
  end.

Definition Filter (pl : VolumeRestrictions) (cycleState : CycleState) (pod : Pod)
    (nodeInfo : NodeInfo) : M Status :=
  if negb (satisfyVolumeConflicts pod nodeInfo)
  then ret (NewStatus Unschedulable [ErrReasonDiskConflict])
  else match getPreFilterState cycleState with
       | inr err => ret (AsStatus err)
       | inl state => satisfyReadWriteOncePod state
       end.

(** ** The re-queue predicates *)

(** An event payload ([interface{}]): nil, a pod, a claim, or an object of
    another type. *)
Inductive Object :=
| ObjNil
| ObjPod (p : Pod)
| ObjPVC (c : PersistentVolumeClaimObject)
| ObjOther (printed : string).

(** Modelled from the spec: [util.As], which types the two payloads of an
    event; "any unexpected event-payload shape is a programming-contract
    violation" (section 4.5).  A nil payload gives a nil typed pointer. *)
Definition As_Pod (oldObj newObj : Object) : option Pod * option Pod + error :=
  match newObj, oldObj with
  | (ObjPVC _ | ObjOther _), _ => inr (OtherError "expected *v1.Pod")
  | _, (ObjPVC _ | ObjOther _) => inr (OtherError "expected *v1.Pod")
  | ObjNil, ObjNil => inl (None, None)
  | ObjNil, ObjPod o => inl (Some o, None)
  | ObjPod n, ObjNil => inl (None, Some n)
  | ObjPod n, ObjPod o => inl (Some o, Some n)
  end.

(** Modelled from the spec: [util.As] at the claim type. *)
Definition As_PersistentVolumeClaim (oldObj newObj : Object)
    : option PersistentVolumeClaimObject * option PersistentVolumeClaimObject + error :=
  match newObj, oldObj with
  | (ObjPod _ | ObjOther _), _ => inr (OtherError "expected *v1.PersistentVolumeClaim")
  | _, (ObjPod _ | ObjOther _) => inr (OtherError "expected *v1.PersistentVolumeClaim")
  | ObjNil, ObjNil => inl (None, None)
  | ObjNil, ObjPVC o => inl (Some o, None)
  | ObjPVC n, ObjNil => inl (None, Some n)
  | ObjPVC n, ObjPVC o => inl (Some o, Some n)
  end.

(** The loop [for pvc := range deletedPodPvcs] of
    [isSchedulableAfterPodDeleted]. *)
Fixpoint sharesPVC_loop (keys : list string) (newPodPvcs : gset string) : bool :=
  match keys with
  | [] => false
  | pvc :: rest => if sets_Has newPodPvcs pvc then true else sharesPVC_loop rest newPodPvcs
  end.

(** A hint function returns a hint and an error; [None] is the run that
    dereferences a nil typed payload and does not return. *)
Definition isSchedulableAfterPodDeleted (pl : VolumeRestrictions) (pod : Pod)
    (oldObj newObj : Object) : option (QueueingHint * option error) :=
  match As_Pod oldObj newObj with
  | inr err =>
      Some (Queue, Some (OtherError ("unexpected objects in isSchedulableAfterPodDeleted: "
                                     +:+ Error_ err)))
  | inl (None, _) => None
  | inl (Some deletedPod, _) =>
      if negb (bool_decide (pod_Namespace deletedPod = pod_Namespace pod))
      then Some (QueueSkip, None)
      else match readWriteOncePodPVCsForPod pl pod false with
           | inr err =>
               if IsNotFound err then Some (QueueSkip, None) else Some (Queue, Some err)
           | inl newPodPvcs =>
               match readWriteOncePodPVCsForPod pl deletedPod true with
               | inr err => Some (Queue, Some err)
               | inl deletedPodPvcs =>
                   if sharesPVC_loop (elements deletedPodPvcs) newPodPvcs
                   then Some (Queue, None)
                   else
                     let nodeInfo := NewNodeInfo [deletedPod] in
                     if negb (satisfyVolumeConflicts pod nodeInfo)
                     then Some (Queue, None)
                     else Some (QueueSkip, None)
               end
           end
  end.

(** The loop of [isSchedulableAfterPersistentVolumeClaimChange] over the
    pod's volumes: the set of resolved names, or the pair returned early. *)
Fixpoint claimChange_loop (pl : VolumeRestrictions) (namespace : string)
    (vols : list Volume) (pvcs : gset string) : gset string + QueueingHint * option error :=
  match vols with
  | [] => inl pvcs
  | volume :: rest =>
      match PersistentVolumeClaim volume with
      | None => claimChange_loop pl namespace rest pvcs
      | Some src =>
          match pvcLister pl namespace (ClaimName src) with
          | inr err =>
              if IsNotFound err then inr (QueueSkip, None) else inr (Queue, Some err)
          | inl pvc => claimChange_loop pl namespace rest ({[pvc_Name pvc]} ∪ pvcs)
          end
      end
  end.

Definition isSchedulableAfterPersistentVolumeClaimChange (pl : VolumeRestrictions) (pod : Pod)
    (oldObj newObj : Object) : option (QueueingHint * option error) :=
  match As_PersistentVolumeClaim oldObj newObj with
  | inr err =>
      Some (Queue,
            Some (OtherError
                    ("unexpected objects in isSchedulableAfterPersistentVolumeClaimChange: "
                     +:+ Error_ err)))
  | inl (oldPersistentVolumeClaim, newPersistentVolumeClaim) =>
      match oldPersistentVolumeClaim, newPersistentVolumeClaim with
      | Some _, _ => Some (QueueSkip, None)
      | None, None => None
      | None, Some newPVC =>
          if negb (bool_decide (pvc_Namespace newPVC = pod_Namespace pod))
          then Some (QueueSkip, None)
          else match claimChange_loop pl (pod_Namespace pod) (Volumes (Spec pod)) ∅ with
               | inr early => Some early
               | inl pvcs =>
                   if sets_Has pvcs (pvc_Name newPVC)
                   then Some (Queue, None)
                   else Some (QueueSkip, None)
               end
      end
  end.

(** The per-kind rules of section 4.1, as the specification words them. *)
Definition spec_conflict (volume existingVolume : Volume) : Prop :=
  (exists d e, GCEPersistentDisk volume = Some d /\ GCEPersistentDisk existingVolume = Some e
               /\ PDName d = PDName e
               /\ ~ (gce_ReadOnly d = true /\ gce_ReadOnly e = true))
  \/ (exists d e, AWSElasticBlockStore volume = Some d /\ AWSElasticBlockStore existingVolume = Some e
                  /\ VolumeID d = VolumeID e)
  \/ (exists d e, ISCSI volume = Some d /\ ISCSI existingVolume = Some e
                  /\ IQN d = IQN e
                  /\ ~ (iscsi_ReadOnly d = true /\ iscsi_ReadOnly e = true))
  \/ (exists d e, RBD volume = Some d /\ RBD existingVolume = Some e
                  /\ (exists mon, mon ∈ CephMonitors d /\ mon ∈ CephMonitors e)
                  /\ RBDPool d = RBDPool e /\ RBDImage d = RBDImage e
                  /\ ~ (rbd_ReadOnly d = true /\ rbd_ReadOnly e = true)).

(** The four kinds that take part in conflict checks, and the kinds a
    volume has. *)
Inductive Kind := NetworkBlock | BlockStorageById | NetworkTarget | DistributedBlockImage.

Definition hasKind (k : Kind) (v : Volume) : Prop :=
  match k with
  | NetworkBlock => GCEPersistentDisk v <> None
  | BlockStorageById => AWSElasticBlockStore v <> None
  | NetworkTarget => ISCSI v <> None
  | DistributedBlockImage => RBD v <> None
  end.

(** Breaks the existentials and conjunctions of the hypotheses and
    substitutes the equations between constructors. *)
Ltac break_hyps :=
  repeat match goal with
  | H : exists _, _ |- _ => destruct H as [? H]
  | H : _ /\ _ |- _ => destruct H
  | H : Some _ = Some _ |- _ => injection H as H; subst
  | H : None = Some _ |- _ => discriminate H
  | H : Some _ = None |- _ => discriminate H
  end.

Definition conflictRelevant (v : Volume) : Prop := exists k, hasKind k v.

(** Some conflict-relevant volume of [pod] conflicts with some volume of
    some pod resident on the node. *)
Definition disk_conflict (pod : Pod) (nodeInfo : NodeInfo) : Prop :=
  exists v ev e, v ∈ Volumes (Spec pod) /\ conflictRelevant v
                 /\ ev ∈ Pods nodeInfo /\ e ∈ Volumes (Spec (pi_Pod ev))
                 /\ spec_conflict v e.

Definition cannotReadError : error :=
  OtherError ("cannot read " +:+ dquote +:+ preFilterStateKey +:+ dquote +:+ " from cycleState").

(** ** Concrete inputs *)

Module Examples.

Definition emptyStore : Store := {| setObjs := ∅; stateObjs := ∅ |}.

(** A claim store with no claim, and an index in which no claim is in use. *)
Definition emptyCluster : VolumeRestrictions :=
  {| pvcLister := fun _ name => inr (NotFoundError name);
     sharedLister := fun _ => false |}.

Definition otherVolume (name : string) : Volume :=
  {| vol_Name := name; GCEPersistentDisk := None; AWSElasticBlockStore := None;
     ISCSI := None; RBD := None; PersistentVolumeClaim := None |}.

Definition gceVolume (name disk : string) (ro : bool) : Volume :=
  {| vol_Name := name;
     GCEPersistentDisk := Some {| PDName := disk; gce_ReadOnly := ro |};
     AWSElasticBlockStore := None; ISCSI := None; RBD := None;
     PersistentVolumeClaim := None |}.

Definition claimVolume (name claim : string) : Volume :=
  {| vol_Name := name; GCEPersistentDisk := None; AWSElasticBlockStore := None;
     ISCSI := None; RBD := None;
     PersistentVolumeClaim := Some {| ClaimName := claim |} |}.

Definition mkPod (name : string) (vols : list Volume) : Pod :=
  {| pod_Namespace := "default"; pod_Name := name; Spec := {| Volumes := vols |} |}.

Definition emptyNode : NodeInfo := {| Pods := [] |}.

(** A store with one set, [{c1}], and one cache entry on it with counter 0,
    written in a cycle state under the plugin's key. *)
Definition entryState : preFilterState :=
  {| readWriteOncePodPVCs := Some 1%positive; conflictingPVCRefCount := 0 |}.

Definition entryStore : Store :=
  {| setObjs := {[ 1%positive := {[ "c1" ]} ]};
     stateObjs := {[ 1%positive := entryState ]} |}.

Definition entryCycleState : CycleState :=
  {[ preFilterStateKey := PreFilterStateData (Some 1%positive) ]}.

(** A pod that mounts the claim [c1]. *)
Definition holder : PodInfo := {| pi_Pod := mkPod "holder" [claimVolume "data" "c1"] |}.

(** A cluster whose claim store holds the exclusive claim [c1], which no
    scheduled pod uses. *)
Definition clusterWithFreeClaim : VolumeRestrictions :=
  {| pvcLister := fun namespace name =>
       if bool_decide (name = "c1")
       then inl {| pvc_Name := "c1"; pvc_Namespace := namespace;
                   AccessModes := [ReadWriteOncePod] |}
       else inr (NotFoundError name);
     sharedLister := fun _ => false |}.

(** A pod to schedule that mounts a disk and the claim [c1]. *)
Definition claimant : Pod :=
  mkPod "claimant" [gceVolume "scratch" "d" false; claimVolume "data" "c1"].

(** A pod that mounts a claim the claim store does not hold. *)
Definition orphan : Pod := mkPod "orphan" [claimVolume "data" "c2"].

(** A pod that mounts the missing claim [c2] and then the claim [c1]. *)
Definition twoClaims : Pod :=
  mkPod "two" [claimVolume "first" "c2"; claimVolume "second" "c1"].

(** The claim [c1], as the event of its creation carries it. *)
Definition claimC1 : PersistentVolumeClaimObject :=
  {| pvc_Name := "c1"; pvc_Namespace := "default"; AccessModes := [ReadWriteOncePod] |}.

Definition claimC2 : PersistentVolumeClaimObject :=
  {| pvc_Name := "c2"; pvc_Namespace := "default"; AccessModes := [ReadWriteOncePod] |}.

(** A claim store whose lookup of [c0] fails with an error other than
    not-found, and which holds no claim. *)
Definition flakyCluster : VolumeRestrictions :=
  {| pvcLister := fun _ name =>
       if bool_decide (name = "c0") then inr (OtherError "store unavailable")
       else inr (NotFoundError name);
     sharedLister := fun _ => false |}.

(** A pod that mounts [c0] and then the missing claim [c2]. *)
Definition flakyThenMissing : Pod :=
  mkPod "flaky" [claimVolume "first" "c0"; claimVolume "second" "c2"].

(** A pod that mounts [c0] only. *)
Definition flakyOnly : Pod := mkPod "f" [claimVolume "first" "c0"].

(** Pods that mount the disk [d] read-write, and a pod without volumes. *)
Definition diskUser : Pod := mkPod "p" [gceVolume "scratch" "d" false].
Definition otherDiskUser : Pod := mkPod "d1" [gceVolume "scratch" "d" false].
Definition bare : Pod := mkPod "d0" [].

(** The scenarios of section 8. *)
Definition rbdVolume (name : string) (monitors : list string) (pool image : string)
    (ro : bool) : Volume :=
  {| vol_Name := name; GCEPersistentDisk := None; AWSElasticBlockStore := None;
     ISCSI := None;
     RBD := Some {| CephMonitors := monitors; RBDPool := pool; RBDImage := image;
                    rbd_ReadOnly := ro |};
     PersistentVolumeClaim := None |}.

Definition podA : Pod := mkPod "a" [rbdVolume "image" ["m1"; "m2"] "p" "img" false].
Definition podB : Pod := mkPod "b" [rbdVolume "image" ["m2"] "p" "img" false].
Definition nodeN : NodeInfo := NewNodeInfo [podB].

(** A cluster whose claim store holds the exclusive claim [c1], in use by a
    scheduled pod. *)
Definition clusterWithHeldClaim : VolumeRestrictions :=
  {| pvcLister := pvcLister clusterWithFreeClaim;
     sharedLister := fun key => bool_decide (key = "default/c1") |}.

(** A pod that mounts [c1] and nothing else. *)
Definition podP : Pod := mkPod "p" [claimVolume "data" "c1"].

(** The store and the cycle state [PreFilter] leaves for [podP] on the
    cluster above. *)
Definition heldStore : Store :=
  {| setObjs := {[ 1%positive := {[ "c1" ]} ]};
     stateObjs := {[ 1%positive := {| readWriteOncePodPVCs := Some 1%positive;
                                      conflictingPVCRefCount := 1 |} ]} |}.

End Examples.

(** ** Terms of the statements about the cache entry *)

(** The set [r] refers to in [σ]. *)
Definition set_at (σ : Store) (r : option loc) (content : gset string) : Prop :=
  match r with
  | Some l => setObjs σ !! l = Some content
  | None => content = ∅
  end.

(** [l] is a cache entry of [σ] with fields [st], whose set is [content]. *)
Definition entry_at (σ : Store) (l : loc) (st : preFilterState) (content : gset string) : Prop :=
  stateObjs σ !! l = Some st /\ set_at σ (readWriteOncePodPVCs st) content.

(** [σ] with the counter of the entry [l] set to [c]. *)
Definition setCount (σ : Store) (l : loc) (st : preFilterState) (c : Z) : Store :=
  {| setObjs := setObjs σ;
     stateObjs := <[l := {| readWriteOncePodPVCs := readWriteOncePodPVCs st;
                            conflictingPVCRefCount := c |}]> (stateObjs σ) |}.

(** Section 4.3: "how many of [otherPod]'s claim-backed volumes name a claim
    present in [entry.exclusiveClaims]". *)
Definition namesClaimIn (content : gset string) (v : Volume) : bool :=
  match PersistentVolumeClaim v with
  | Some src => bool_decide (ClaimName src ∈ content)
  | None => false
  end.

Definition matchCount (content : gset string) (pod : Pod) : Z :=
  Z.of_nat (length (List.filter (namesClaimIn content) (Volumes (Spec pod)))).

(** Section 4.3: the claims of a set that the cluster-wide index reports in
    use. *)
Definition inUseCount (pl : VolumeRestrictions) (namespace : string) (content : gset string) : Z :=
  Z.of_nat (length (List.filter (fun pvc => sharedLister pl (GetNamespacedName namespace pvc))
                                (elements content))).

(** The hooks the scheduler calls during a preemption simulation. *)
Inductive Op :=
| OpAddPod (podInfo : PodInfo)
| OpRemovePod (podInfo : PodInfo).

(** A simulation: the hooks run in order, each on the store the previous one
    left; the statuses they return are collected. *)
Fixpoint runOps (pl : VolumeRestrictions) (cycleState : CycleState) (podToSchedule : Pod)
    (nodeInfo : NodeInfo) (ops : list Op) : M (list Status) :=
  match ops with
  | [] => ret []
  | op :: ops' =>
      let* status :=
        match op with
        | OpAddPod podInfo => AddPod pl cycleState podToSchedule podInfo nodeInfo
        | OpRemovePod podInfo => RemovePod pl cycleState podToSchedule podInfo nodeInfo
        end in
      let* statuses := runOps pl cycleState podToSchedule nodeInfo ops' in
      ret (status :: statuses)
  end.

(** The exact sum of the signed match counts of a simulation. *)
Fixpoint signedMatches (content : gset string) (ops : list Op) : Z :=
  match ops with
  | [] => 0
  | OpAddPod podInfo :: ops' => matchCount content (pi_Pod podInfo) + signedMatches content ops'
  | OpRemovePod podInfo :: ops' => - matchCount content (pi_Pod podInfo) + signedMatches content ops'
  end.

(** ** Terms of the statements about the resolver and PreFilter *)

(** A claim store answers a lookup by name with the claim of that name. *)
Definition lister_coherent (pl : VolumeRestrictions) : Prop :=
  forall namespace name pvc, pvcLister pl namespace name = inl pvc -> pvc_Name pvc = name.

(** A lookup outcome the resolver passes over: a claim, or, in best-effort
    mode ([ignoreNotFoundError]), a not-found error. *)
Definition passedOver (ignoreNotFoundError : bool)
    (res : PersistentVolumeClaimObject + error) : Prop :=
  match res with
  | inl _ => True
  | inr e => ignoreNotFoundError = true /\ IsNotFound e = true
  end.

(** Section 4.2, the failure of the resolver on a sequence of volumes: [e]
    is the outcome of the lookup of the first claim-backed volume, in order,
    whose lookup fails with an error that is not passed over. *)
Definition failsIn (pl : VolumeRestrictions) (namespace : string) (ignoreNotFoundError : bool)
    (vols : list Volume) (e : error) : Prop :=
  exists before v src after,
    vols = (before ++ v :: after)%list
    /\ PersistentVolumeClaim v = Some src
    /\ pvcLister pl namespace (ClaimName src) = inr e
    /\ (ignoreNotFoundError = true -> IsNotFound e = false)
    /\ forall v' src', v' ∈ before -> PersistentVolumeClaim v' = Some src' ->
         passedOver ignoreNotFoundError (pvcLister pl namespace (ClaimName src')).

Definition firstFailure (pl : VolumeRestrictions) (pod : Pod) (ignoreNotFoundError : bool)
    (e : error) : Prop :=
  failsIn pl (pod_Namespace pod) ignoreNotFoundError (Volumes (Spec pod)) e.

(** The counter [PreFilter] computes for a pod, when the strict resolution of
    its claims succeeds. *)
Definition computedCount (pl : VolumeRestrictions) (pod : Pod) : option Z :=
  match readWriteOncePodPVCsForPod pl pod false with
  | inl pvcs => Some (calPreFilterState_loop pl pod (elements pvcs) 0)
  | inr _ => None
  end.

(** The status [PreFilter] gives a failed resolution. *)
Definition lookupFailureStatus (e : error) : Status :=
  if IsNotFound e then NewStatus UnschedulableAndUnresolvable [Error_ e] else AsStatus e.

(** The store [PreFilter] leaves when the resolution succeeds with [pvcs]:
    one new set object and one new entry on it. *)
Definition preFilterStore (σ : Store) (pvcs : gset string) (c : Z) : Store :=
  {| setObjs := <[fresh (dom (setObjs σ)) := pvcs]> (setObjs σ);
     stateObjs := <[fresh (dom (stateObjs σ)) :=
                      {| readWriteOncePodPVCs := Some (fresh (dom (setObjs σ)));
                         conflictingPVCRefCount := c |}]> (stateObjs σ) |}.

(** The pod has a volume of one of the four conflict-relevant kinds. *)
Definition hasRelevantVolume (pod : Pod) : Prop :=
  exists v, v ∈ Volumes (Spec pod) /\ conflictRelevant v.

(** ** Terms of the statements about the re-queue predicates *)

(** Every claim a claim-backed volume of the pod references is in the claim
    store. *)
Definition allResolve (pl : VolumeRestrictions) (pod : Pod) : Prop :=
  forall v src, v ∈ Volumes (Spec pod) -> PersistentVolumeClaim v = Some src ->
                exists pvc, pvcLister pl (pod_Namespace pod) (ClaimName src) = inl pvc.

(** Some claim-backed volume of the pod references the claim [name]. *)
Definition referencesClaim (pod : Pod) (name : string) : Prop :=
  exists v, v ∈ Volumes (Spec pod) /\ PersistentVolumeClaim v = Some {| ClaimName := name |}.

(** Some conflict-relevant volume of [pod] conflicts with a volume of
    [other]: the check against the node that holds [other] alone finds a
    conflict. *)
Definition conflictsWithPod (pod other : Pod) : Prop :=
  exists v e, v ∈ Volumes (Spec pod) /\ conflictRelevant v
              /\ e ∈ Volumes (Spec other) /\ spec_conflict v e.

(** The pair the claim-change predicate returns for the first failing
    lookup. *)
Definition lookupFailureHint (e : error) : QueueingHint * option error :=
  if IsNotFound e then (QueueSkip, None) else (Queue, Some e).

(** The pod-deletion predicate on the event of the deletion of [deletedPod]:
    the old payload is the pod, the new payload is nil. *)
Definition afterPodDeleted (pl : VolumeRestrictions) (pod deletedPod : Pod)
    : option (QueueingHint * option error) :=
  isSchedulableAfterPodDeleted pl pod (ObjPod deletedPod) ObjNil.

(** Some claim name lies in both sets. *)
Definition shareClaim (a b : gset string) : Prop := exists x, x ∈ a /\ x ∈ b.

(** * Properties *)

(** ** Arithmetic of Go integers *)

Section GoIntFacts.
Import GoInt.

Lemma wrap_in_range z : in_range (wrap z).
Proof.
  unfold in_range, wrap, min_int, max_int, modulus, bits.
  pose proof (Z.mod_pos_bound (z + 2 ^ (64 - 1)) (2 ^ 64) ltac:(lia)). lia.
Qed.

Lemma wrap_id z : in_range z -> wrap z = z.
Proof.
  unfold in_range, wrap, min_int, max_int, modulus, bits. intros Hz.
  rewrite Z.mod_small; lia.
Qed.

Lemma wrap_eqm z : (wrap z) mod modulus = z mod modulus.
Proof.
  unfold wrap.
  replace ((z + 2 ^ (bits - 1)) mod modulus - 2 ^ (bits - 1))
    with ((z + 2 ^ (bits - 1)) mod modulus + (- 2 ^ (bits - 1))) by lia.
  rewrite Zplus_mod_idemp_l. f_equal. lia.
Qed.

Lemma wrap_congr a b : a mod modulus = b mod modulus -> wrap a = wrap b.
Proof.
  intros H. unfold wrap. f_equal.
  rewrite (Zplus_mod a), (Zplus_mod b), H. reflexivity.
Qed.

Lemma wrap_add_l a b : wrap (wrap a + b) = wrap (a + b).
Proof. apply wrap_congr. rewrite Zplus_mod, wrap_eqm, <- Zplus_mod. reflexivity. Qed.

Lemma wrap_add_r a b : wrap (a + wrap b) = wrap (a + b).
Proof. rewrite (Z.add_comm a), wrap_add_l. f_equal. lia. Qed.

Lemma wrap_mul_r a b : wrap (a * wrap b) = wrap (a * b).
Proof. apply wrap_congr. rewrite Zmult_mod, wrap_eqm, <- Zmult_mod. reflexivity. Qed.

End GoIntFacts.

(** ** The conflict matcher *)

Lemma haveOverlap_probe_spec (m : gset string) (a2 : list string) :
  haveOverlap_probe m a2 = true <-> exists x, x ∈ m /\ x ∈ a2.
Proof.
  induction a2 as [|val a2 IH]; simpl.
  - split; [discriminate|]. intros (x & _ & Hx). inversion Hx.
  - unfold sets_Has. case_bool_decide as Hval.
    + split; [|reflexivity]. intros _. exists val. split; [done|]. left.
    + rewrite IH. split.
      * intros (x & Hm & Hx). exists x. split; [done|]. by right.
      * intros (x & Hm & Hx). exists x. split; [done|].
        apply elem_of_cons in Hx as [->|Hx]; [contradiction|done].
Qed.

Lemma haveOverlap_spec (a1 a2 : list string) :
  haveOverlap a1 a2 = true <-> exists x, x ∈ a1 /\ x ∈ a2.
Proof.
  unfold haveOverlap, sets_New.
  destruct (length a2 <? length a1)%nat; rewrite haveOverlap_probe_spec;
    split; intros (x & H1 & H2); exists x; set_solver.
Qed.

Lemma haveOverlap_sym (a1 a2 : list string) : haveOverlap a1 a2 = haveOverlap a2 a1.
Proof.
  apply eq_true_iff_eq. rewrite !haveOverlap_spec.
  split; intros (x & H1 & H2); exists x; done.
Qed.

Lemma not_both_true (a b : bool) : negb (a && b) = true <-> ~ (a = true /\ b = true).
Proof. destruct a, b; simpl; intuition congruence. Qed.

Lemma gce_rule (o o' : option GCEPersistentDiskVolumeSource) :
  match o, o' with
  | Some disk, Some existingDisk =>
      bool_decide (PDName disk = PDName existingDisk)
      && negb (gce_ReadOnly disk && gce_ReadOnly existingDisk)
  | _, _ => false
  end = true
  <-> exists d e, o = Some d /\ o' = Some e /\ PDName d = PDName e
                  /\ ~ (gce_ReadOnly d = true /\ gce_ReadOnly e = true).
Proof.
  destruct o as [d|], o' as [e|]; try (split; [discriminate | intros; break_hyps]).
  rewrite andb_true_iff, bool_decide_eq_true, not_both_true.
  split; [intros []; eauto 6 | intros; break_hyps; eauto].
Qed.

Lemma aws_rule (o o' : option AWSElasticBlockStoreVolumeSource) :
  match o, o' with
  | Some ebs, Some existingEbs => bool_decide (VolumeID ebs = VolumeID existingEbs)
  | _, _ => false
  end = true
  <-> exists d e, o = Some d /\ o' = Some e /\ VolumeID d = VolumeID e.
Proof.
  destruct o as [d|], o' as [e|]; try (split; [discriminate | intros; break_hyps]).
  rewrite bool_decide_eq_true.
  split; [eauto | intros; break_hyps; eauto].
Qed.

Lemma iscsi_rule (o o' : option ISCSIVolumeSource) :
  match o, o' with
  | Some iscsi, Some existingIscsi =>
      bool_decide (IQN iscsi = IQN existingIscsi)
      && negb (iscsi_ReadOnly iscsi && iscsi_ReadOnly existingIscsi)
  | _, _ => false
  end = true
  <-> exists d e, o = Some d /\ o' = Some e /\ IQN d = IQN e
                  /\ ~ (iscsi_ReadOnly d = true /\ iscsi_ReadOnly e = true).
Proof.
  destruct o as [d|], o' as [e|]; try (split; [discriminate | intros; break_hyps]).
  rewrite andb_true_iff, bool_decide_eq_true, not_both_true.
  split; [intros []; eauto 6 | intros; break_hyps; eauto].
Qed.

Lemma rbd_rule (o o' : option RBDVolumeSource) :
  match o, o' with
  | Some rbd, Some existingRbd =>
      haveOverlap (CephMonitors rbd) (CephMonitors existingRbd)
      && bool_decide (RBDPool rbd = RBDPool existingRbd)
      && bool_decide (RBDImage rbd = RBDImage existingRbd)
      && negb (rbd_ReadOnly rbd && rbd_ReadOnly existingRbd)
  | _, _ => false
  end = true
  <-> exists d e, o = Some d /\ o' = Some e
                  /\ (exists mon, mon ∈ CephMonitors d /\ mon ∈ CephMonitors e)
                  /\ RBDPool d = RBDPool e /\ RBDImage d = RBDImage e
                  /\ ~ (rbd_ReadOnly d = true /\ rbd_ReadOnly e = true).
Proof.
  destruct o as [d|], o' as [e|]; try (split; [discriminate | intros; break_hyps]).
  rewrite !andb_true_iff, !bool_decide_eq_true, not_both_true, haveOverlap_spec.
  split.
  - intros [[[Hm Hp] Hi] Hr]. exists d, e. done.
  - intros (d' & e' & [= <-] & [= <-] & Hm & Hp & Hi & Hr). done.
Qed.

Lemma if_true_orb (a b : bool) : (if a then true else b) = a || b.
Proof. by destruct a. Qed.

Lemma conflictsWith_spec (volume existingVolume : Volume) :
  conflictsWith volume existingVolume = true <-> spec_conflict volume existingVolume.
Proof.
  unfold conflictsWith, spec_conflict.
  rewrite !if_true_orb, !orb_true_iff.
  rewrite gce_rule, aws_rule, iscsi_rule.
  pose proof (rbd_rule (RBD volume) (RBD existingVolume)) as Hrbd.
  destruct (RBD volume) as [r|], (RBD existingVolume) as [r'|]; simpl in *;
    rewrite Hrbd; reflexivity.
Qed.

Lemma isVolumeConflict_loop_spec (volume : Volume) (existing : list Volume) :
  isVolumeConflict_loop volume existing = true
  <-> exists existingVolume, existingVolume ∈ existing
                             /\ conflictsWith volume existingVolume = true.
Proof.
  induction existing as [|e existing IH]; simpl.
  - split; [discriminate|]. intros (x & Hx & _). inversion Hx.
  - destruct (conflictsWith volume e) eqn:He.
    + split; [|reflexivity]. intros _. exists e. split; [left|done].
    + rewrite IH. split; intros (x & Hx & Hc).
      * exists x. split; [by right|done].
      * apply elem_of_cons in Hx as [->|Hx]; [congruence|]. by exists x.
Qed.

Lemma no_common_kind_no_conflict (volume existingVolume : Volume) :
  (forall k, ~ (hasKind k volume /\ hasKind k existingVolume)) ->
  conflictsWith volume existingVolume = false.
Proof.
  intros Hk. apply not_true_is_false. rewrite conflictsWith_spec.
  intros [(d & e & H1 & H2 & _)|[(d & e & H1 & H2 & _)|[(d & e & H1 & H2 & _)|(d & e & H1 & H2 & _)]]].
  - apply (Hk NetworkBlock). simpl. rewrite H1, H2. done.
  - apply (Hk BlockStorageById). simpl. rewrite H1, H2. done.
  - apply (Hk NetworkTarget). simpl. rewrite H1, H2. done.
  - apply (Hk DistributedBlockImage). simpl. rewrite H1, H2. done.
Qed.

(** C2: the conflict matcher decides a pair of volume descriptors exactly by
    the per-kind rules: equal disk names and not both read-only for
    network-block, equal volume ids for block-storage-by-id, equal IQNs and
    not both read-only for network-target, and a common monitor endpoint,
    equal pools, equal images and not both read-only for
    distributed-block-image; two volumes that share none of the four kinds
    never conflict; and a volume conflicts with a pod exactly when it
    conflicts with one of the pod's volumes. *)
Theorem conflict_matcher_rules (volume existingVolume : Volume) (pod : Pod) :
  (conflictsWith volume existingVolume = true <-> spec_conflict volume existingVolume)
  /\ ((forall k, ~ (hasKind k volume /\ hasKind k existingVolume)) ->
      conflictsWith volume existingVolume = false)
  /\ (isVolumeConflict volume pod = true
      <-> exists e, e ∈ Volumes (Spec pod) /\ spec_conflict volume e).
Proof.
  split; [apply conflictsWith_spec|].
  split; [apply no_common_kind_no_conflict|].
  unfold isVolumeConflict. rewrite isVolumeConflict_loop_spec.
  split; intros (e & He & Hc); exists e; split; try done; by apply conflictsWith_spec.
Qed.

(** ** The pod-against-node check *)

Lemma needsRestrictionsCheck_spec (v : Volume) :
  needsRestrictionsCheck v = true <-> conflictRelevant v.
Proof.
  unfold needsRestrictionsCheck, conflictRelevant.
  rewrite !orb_true_iff, !bool_decide_eq_true. split.
  - intros [[[H|H]|H]|H];
      [exists NetworkBlock | exists BlockStorageById
       | exists DistributedBlockImage | exists NetworkTarget]; exact H.
  - intros [[] H]; simpl in H; tauto.
Qed.

Lemma conflictsOnNode_spec (v : Volume) (pods : list PodInfo) :
  conflictsOnNode v pods = true
  <-> exists ev e, ev ∈ pods /\ e ∈ Volumes (Spec (pi_Pod ev)) /\ spec_conflict v e.
Proof.
  induction pods as [|p pods IH]; simpl.
  - split; [discriminate|]. intros (ev & e & Hev & _). inversion Hev.
  - destruct (isVolumeConflict v (pi_Pod p)) eqn:Hp.
    + split; [|reflexivity]. intros _.
      apply isVolumeConflict_loop_spec in Hp as (e & He & Hc).
      exists p, e. split; [left|]. split; [done|]. by apply conflictsWith_spec.
    + rewrite IH. split; intros (ev & e & Hev & He & Hc).
      * exists ev, e. split; [by right|done].
      * apply elem_of_cons in Hev as [->|Hev]; [|by exists ev, e].
        exfalso. apply not_true_iff_false in Hp. apply Hp.
        apply isVolumeConflict_loop_spec. exists e. split; [done|].
        by apply conflictsWith_spec.
Qed.

Lemma satisfyVolumeConflicts_loop_spec (vols : list Volume) (nodeInfo : NodeInfo) :
  satisfyVolumeConflicts_loop vols nodeInfo = false
  <-> exists v ev e, v ∈ vols /\ conflictRelevant v
                     /\ ev ∈ Pods nodeInfo /\ e ∈ Volumes (Spec (pi_Pod ev))
                     /\ spec_conflict v e.
Proof.
  induction vols as [|v vols IH]; simpl.
  - split; [discriminate|]. intros (v & ev & e & Hv & _). inversion Hv.
  - destruct (needsRestrictionsCheck v) eqn:Hn; simpl.
    + destruct (conflictsOnNode v (Pods nodeInfo)) eqn:Hc.
      * split; [|reflexivity]. intros _.
        apply conflictsOnNode_spec in Hc as (ev & e & Hev & He & Hc).
        exists v, ev, e. split; [left|]. split; [by apply needsRestrictionsCheck_spec|done].
      * rewrite IH. split; intros (v' & ev & e & Hv & Hr & Hev & He & Hs).
        -- exists v', ev, e. split; [by right|done].
        -- apply elem_of_cons in Hv as [->|Hv]; [|by exists v', ev, e].
           exfalso. apply not_true_iff_false in Hc. apply Hc.
           apply conflictsOnNode_spec. by exists ev, e.
    + rewrite IH. split; intros (v' & ev & e & Hv & Hr & Hev & He & Hs).
      * exists v', ev, e. split; [by right|done].
      * apply elem_of_cons in Hv as [->|Hv]; [|by exists v', ev, e].
        exfalso. apply not_true_iff_false in Hn. apply Hn.
        by apply needsRestrictionsCheck_spec.
Qed.

Lemma satisfyVolumeConflicts_spec (pod : Pod) (nodeInfo : NodeInfo) :
  satisfyVolumeConflicts pod nodeInfo = false <-> disk_conflict pod nodeInfo.
Proof. apply satisfyVolumeConflicts_loop_spec. Qed.

(** ** Filter *)

Lemma Filter_conflict (pl : VolumeRestrictions) (cycleState : CycleState) (pod : Pod)
    (nodeInfo : NodeInfo) (σ : Store) :
  disk_conflict pod nodeInfo ->
  Filter pl cycleState pod nodeInfo σ
  = Some (NewStatus Unschedulable [ErrReasonDiskConflict], σ).
Proof.
  intros Hc. apply satisfyVolumeConflicts_spec in Hc.
  unfold Filter. rewrite Hc. reflexivity.
Qed.

Lemma Filter_no_conflict (pl : VolumeRestrictions) (cycleState : CycleState) (pod : Pod)
    (nodeInfo : NodeInfo) (σ : Store) :
  ~ disk_conflict pod nodeInfo ->
  Filter pl cycleState pod nodeInfo σ
  = match getPreFilterState cycleState with
    | inr err => Some (AsStatus err, σ)
    | inl state => satisfyReadWriteOncePod state σ
    end.
Proof.
  intros Hc. rewrite <- satisfyVolumeConflicts_spec in Hc.
  apply not_false_is_true in Hc. unfold Filter. rewrite Hc. simpl.
  destruct (getPreFilterState cycleState); reflexivity.
Qed.

Lemma satisfyReadWriteOncePod_live (l : loc) (st : preFilterState) (σ : Store) :
  stateObjs σ !! l = Some st ->
  satisfyReadWriteOncePod (Some l) σ
  = Some (if bool_decide (0 < conflictingPVCRefCount st)
          then NewStatus Unschedulable [ErrReasonReadWriteOncePodConflict]
          else None, σ).
Proof.
  intros Hl. unfold satisfyReadWriteOncePod, bind, deref_state. rewrite Hl.
  by case_bool_decide.
Qed.

Lemma getPreFilterState_present (cycleState : CycleState) (s : option loc) :
  cycleState !! preFilterStateKey = Some (PreFilterStateData s) ->
  getPreFilterState cycleState = inl s.
Proof. intros H. unfold getPreFilterState, CycleState_Read. by rewrite H. Qed.

Lemma getPreFilterState_absent (cycleState : CycleState) :
  cycleState !! preFilterStateKey = None ->
  getPreFilterState cycleState = inr cannotReadError.
Proof. intros H. unfold getPreFilterState, CycleState_Read. by rewrite H. Qed.

(** C1, as the code has it: Filter rejects with the disk-conflict reason
    exactly when some conflict-relevant volume of the pod conflicts with a
    volume of a pod resident on the node.  Otherwise, with a cache entry
    written under the plugin's key, it rejects with the exclusive-claim
    reason exactly when the entry's counter is positive and admits exactly
    when it is not; a nil state pointer under the key is an automatic pass;
    and with nothing written under the key Filter does not admit but returns
    the error status "cannot read ... from cycleState". *)
Theorem Filter_outcome (pl : VolumeRestrictions) (cycleState : CycleState) (pod : Pod)
    (nodeInfo : NodeInfo) (σ : Store) :
  (Filter pl cycleState pod nodeInfo σ
   = Some (NewStatus Unschedulable [ErrReasonDiskConflict], σ)
   <-> disk_conflict pod nodeInfo)
  /\ (~ disk_conflict pod nodeInfo ->
      (forall l st,
          cycleState !! preFilterStateKey = Some (PreFilterStateData (Some l)) ->
          stateObjs σ !! l = Some st ->
          (Filter pl cycleState pod nodeInfo σ
           = Some (NewStatus Unschedulable [ErrReasonReadWriteOncePodConflict], σ)
           <-> 0 < conflictingPVCRefCount st)
          /\ (Filter pl cycleState pod nodeInfo σ = Some (None, σ)
              <-> conflictingPVCRefCount st <= 0))
      /\ (cycleState !! preFilterStateKey = Some (PreFilterStateData None) ->
          Filter pl cycleState pod nodeInfo σ = Some (None, σ))
      /\ (cycleState !! preFilterStateKey = None ->
          Filter pl cycleState pod nodeInfo σ = Some (AsStatus cannotReadError, σ))).
Proof.
  split.
  - split; [|apply Filter_conflict].
    intros HF. destruct (satisfyVolumeConflicts pod nodeInfo) eqn:Hs;
      [|by apply satisfyVolumeConflicts_spec].
    exfalso. unfold Filter in HF. rewrite Hs in HF. simpl in HF.
    destruct (getPreFilterState cycleState) as [[l|]|e]; [| |discriminate HF].
    + unfold satisfyReadWriteOncePod, bind, deref_state in HF.
      destruct (stateObjs σ !! l) as [st|]; [|discriminate HF].
      case_bool_decide; discriminate HF.
    + discriminate HF.
  - intros Hn. rewrite (Filter_no_conflict _ _ _ _ _ Hn). split; [|split].
    + intros l st Hcs Hl.
      rewrite (getPreFilterState_present _ _ Hcs), (satisfyReadWriteOncePod_live _ _ _ Hl).
      case_bool_decide as Hpos; (split; split; intros H; try done; try discriminate H; lia).
    + intros H. by rewrite (getPreFilterState_present _ _ H).
    + intros H. by rewrite (getPreFilterState_absent _ H).
Qed.

(** C1, as stated, fails: a pod without volumes, a node without pods and a
    cycle state in which nothing was written.  No volume conflicts, no cache
    entry is present, and Filter returns an error status instead of
    admitting. *)
Lemma Filter_without_entry_is_error :
  let pod := Examples.mkPod "p" [] in
  (∅ : CycleState) !! preFilterStateKey = None
  /\ ~ disk_conflict pod Examples.emptyNode
  /\ Filter Examples.emptyCluster ∅ pod Examples.emptyNode Examples.emptyStore
     = Some (AsStatus cannotReadError, Examples.emptyStore)
  /\ Filter Examples.emptyCluster ∅ pod Examples.emptyNode Examples.emptyStore
     <> Some (None, Examples.emptyStore).
Proof.
  simpl. split; [reflexivity|]. split.
  - intros (v & ev & e & Hv & _). inversion Hv.
  - split; [reflexivity|discriminate].
Qed.

(** ** The cache entry *)

Lemma deref_set_at (σ : Store) (r : option loc) (content : gset string) :
  set_at σ r content -> deref_set r σ = Some (content, σ).
Proof.
  unfold set_at, deref_set. destruct r as [l|]; [intros ->|intros ->]; reflexivity.
Qed.

Lemma set_at_setCount (σ : Store) (l : loc) (st : preFilterState) (c : Z)
    (r : option loc) (content : gset string) :
  set_at σ r content -> set_at (setCount σ l st c) r content.
Proof. by destruct r. Qed.

Lemma conflictingPVCRefCountForPod_loop_spec (σ : Store) (l : loc) (st : preFilterState)
    (content : gset string) (vols : list Volume) (a : Z) :
  entry_at σ l st content ->
  conflictingPVCRefCountForPod_loop (Some l) vols (GoInt.wrap a) σ
  = Some (GoInt.wrap (a + Z.of_nat (length (List.filter (namesClaimIn content) vols))), σ).
Proof.
  intros [Hl Hs]. revert a. induction vols as [|v vols IH]; intros a; simpl.
  - unfold ret. do 3 f_equal. lia.
  - unfold namesClaimIn at 1. destruct (PersistentVolumeClaim v) as [src|]; [|apply IH].
    unfold bind at 1, deref_state. rewrite Hl.
    unfold bind at 1. rewrite (deref_set_at _ _ _ Hs).
    unfold sets_Has. case_bool_decide; [|apply IH].
    unfold GoInt.add. rewrite wrap_add_l, IH. simpl length. do 3 f_equal. lia.
Qed.

Lemma conflictingPVCRefCountForPod_spec (σ : Store) (l : loc) (st : preFilterState)
    (content : gset string) (podInfo : PodInfo) :
  entry_at σ l st content ->
  conflictingPVCRefCountForPod (Some l) podInfo σ
  = Some (GoInt.wrap (matchCount content (pi_Pod podInfo)), σ).
Proof.
  intros He. unfold conflictingPVCRefCountForPod.
  change 0 with (GoInt.wrap 0) at 1.
  by rewrite (conflictingPVCRefCountForPod_loop_spec _ _ _ _ _ _ He).
Qed.

Lemma updateWithPod_spec (σ : Store) (l : loc) (st : preFilterState)
    (content : gset string) (podInfo : PodInfo) (multiplier : Z) :
  entry_at σ l st content ->
  updateWithPod (Some l) podInfo multiplier σ
  = Some (tt, setCount σ l st
                (GoInt.wrap (conflictingPVCRefCount st
                             + multiplier * matchCount content (pi_Pod podInfo)))).
Proof.
  intros He. unfold updateWithPod, bind.
  rewrite (conflictingPVCRefCountForPod_spec _ _ _ _ _ He).
  destruct He as [Hl Hs]. unfold deref_state, store_count. rewrite Hl. simpl. rewrite Hl.
  unfold GoInt.add, GoInt.mul. by rewrite wrap_mul_r, wrap_add_r.
Qed.

Lemma entry_at_setCount (σ : Store) (l : loc) (st : preFilterState)
    (content : gset string) (c : Z) :
  entry_at σ l st content ->
  entry_at (setCount σ l st c) l
    {| readWriteOncePodPVCs := readWriteOncePodPVCs st; conflictingPVCRefCount := c |} content.
Proof.
  intros [Hl Hs]. split; [apply lookup_insert_eq|]. by apply set_at_setCount.
Qed.

Lemma setCount_setCount (σ : Store) (l : loc) (st st' : preFilterState) (c c' : Z) :
  readWriteOncePodPVCs st' = readWriteOncePodPVCs st ->
  setCount (setCount σ l st c) l st' c' = setCount σ l st c'.
Proof. intros Hr. unfold setCount. simpl. by rewrite insert_insert_eq, Hr. Qed.

Lemma setCount_id (σ : Store) (l : loc) (st : preFilterState) :
  stateObjs σ !! l = Some st -> setCount σ l st (conflictingPVCRefCount st) = σ.
Proof.
  intros Hl. destruct σ as [sets states], st as [r c]. unfold setCount. simpl in *.
  by rewrite insert_id.
Qed.

Lemma AddPod_spec (pl : VolumeRestrictions) (cycleState : CycleState) (podToSchedule : Pod)
    (podInfoToAdd : PodInfo) (nodeInfo : NodeInfo) (σ : Store) (l : loc)
    (st : preFilterState) (content : gset string) :
  cycleState !! preFilterStateKey = Some (PreFilterStateData (Some l)) ->
  entry_at σ l st content ->
  AddPod pl cycleState podToSchedule podInfoToAdd nodeInfo σ
  = Some (None, setCount σ l st
                  (GoInt.wrap (conflictingPVCRefCount st
                               + matchCount content (pi_Pod podInfoToAdd)))).
Proof.
  intros Hcs He. unfold AddPod. rewrite (getPreFilterState_present _ _ Hcs).
  unfold bind. rewrite (updateWithPod_spec _ _ _ _ _ _ He). unfold ret.
  repeat f_equal; lia.
Qed.

Lemma RemovePod_spec (pl : VolumeRestrictions) (cycleState : CycleState) (podToSchedule : Pod)
    (podInfoToRemove : PodInfo) (nodeInfo : NodeInfo) (σ : Store) (l : loc)
    (st : preFilterState) (content : gset string) :
  cycleState !! preFilterStateKey = Some (PreFilterStateData (Some l)) ->
  entry_at σ l st content ->
  RemovePod pl cycleState podToSchedule podInfoToRemove nodeInfo σ
  = Some (None, setCount σ l st
                  (GoInt.wrap (conflictingPVCRefCount st
                               - matchCount content (pi_Pod podInfoToRemove)))).
Proof.
  intros Hcs He. unfold RemovePod. rewrite (getPreFilterState_present _ _ Hcs).
  unfold bind. rewrite (updateWithPod_spec _ _ _ _ _ _ He). unfold ret.
  repeat f_equal; lia.
Qed.

Lemma add_then_remove (σ : Store) (l : loc) (st : preFilterState) (n : Z) :
  stateObjs σ !! l = Some st ->
  GoInt.in_range (conflictingPVCRefCount st) ->
  setCount (setCount σ l st (GoInt.wrap (conflictingPVCRefCount st + n))) l
    {| readWriteOncePodPVCs := readWriteOncePodPVCs st;
       conflictingPVCRefCount := GoInt.wrap (conflictingPVCRefCount st + n) |}
    (GoInt.wrap (GoInt.wrap (conflictingPVCRefCount st + n) - n))
  = σ.
Proof.
  intros Hl Hr. rewrite setCount_setCount by reflexivity.
  replace (GoInt.wrap (conflictingPVCRefCount st + n) - n)
    with (GoInt.wrap (conflictingPVCRefCount st + n) + - n) by lia.
  rewrite wrap_add_l.
  replace (conflictingPVCRefCount st + n + - n) with (conflictingPVCRefCount st) by lia.
  rewrite (wrap_id _ Hr). by apply setCount_id.
Qed.

(** C4: on every cache entry (an entry of the store whose counter is an
    [int]) and for every pod X, [updateWithPod] with +1 followed by
    [updateWithPod] with -1 for X both return and leave the counter, and the
    whole store, exactly as before the two calls; the same holds for [AddPod]
    followed by [RemovePod] on the entry written in the cycle state. *)
Theorem updateWithPod_add_remove (pl : VolumeRestrictions) (cycleState : CycleState)
    (podToSchedule : Pod) (nodeInfo : NodeInfo) (σ : Store) (l : loc)
    (st : preFilterState) (content : gset string) (X : PodInfo) :
  entry_at σ l st content ->
  GoInt.in_range (conflictingPVCRefCount st) ->
  (exists σ1, updateWithPod (Some l) X 1 σ = Some (tt, σ1)
              /\ updateWithPod (Some l) X (-1) σ1 = Some (tt, σ))
  /\ (cycleState !! preFilterStateKey = Some (PreFilterStateData (Some l)) ->
      exists σ1, AddPod pl cycleState podToSchedule X nodeInfo σ = Some (None, σ1)
                 /\ RemovePod pl cycleState podToSchedule X nodeInfo σ1 = Some (None, σ)).
Proof.
  intros He Hr. pose proof He as [Hl Hs]. split.
  - eexists. split; [by apply updateWithPod_spec|].
    rewrite (updateWithPod_spec _ _ _ _ _ _ (entry_at_setCount _ _ _ _ _ He)). simpl.
    do 2 f_equal.
    replace (1 * matchCount content (pi_Pod X)) with (matchCount content (pi_Pod X)) by lia.
    replace (GoInt.wrap (conflictingPVCRefCount st + matchCount content (pi_Pod X))
             + -1 * matchCount content (pi_Pod X))
      with (GoInt.wrap (conflictingPVCRefCount st + matchCount content (pi_Pod X))
            - matchCount content (pi_Pod X)) by lia.
    by apply add_then_remove.
  - intros Hcs. eexists. split; [by eapply AddPod_spec|].
    rewrite (RemovePod_spec _ _ _ _ _ _ _ _ _ Hcs (entry_at_setCount _ _ _ _ _ He)). simpl.
    do 2 f_equal. by apply add_then_remove.
Qed.

Lemma entryStore_entry :
  entry_at Examples.entryStore 1%positive Examples.entryState {[ "c1" ]}.
Proof. split; reflexivity. Qed.

Lemma in_range_0 : GoInt.in_range 0.
Proof. unfold GoInt.in_range, GoInt.min_int, GoInt.max_int, GoInt.bits. lia. Qed.

(** The entry on [{c1}] with counter 0 and a pod that mounts [c1]: the
    counter goes to 1 and back to 0. *)
Lemma updateWithPod_add_remove_witness :
  entry_at Examples.entryStore 1%positive Examples.entryState {[ "c1" ]}
  /\ GoInt.in_range (conflictingPVCRefCount Examples.entryState)
  /\ (exists σ1, updateWithPod (Some 1%positive) Examples.holder 1 Examples.entryStore
                 = Some (tt, σ1)
                 /\ updateWithPod (Some 1%positive) Examples.holder (-1) σ1
                    = Some (tt, Examples.entryStore)).
Proof.
  split; [exact entryStore_entry|]. split; [exact in_range_0|].
  exact (proj1 (updateWithPod_add_remove Examples.emptyCluster Examples.entryCycleState
                  (Examples.mkPod "p" []) Examples.emptyNode Examples.entryStore 1%positive
                  Examples.entryState {[ "c1" ]} Examples.holder
                  entryStore_entry in_range_0)).
Defined.

(** ** Clone *)

Lemma Clone_spec (σ : Store) (l : loc) (st : preFilterState) :
  stateObjs σ !! l = Some st ->
  Clone (Some l) σ
  = Some (PreFilterStateData (Some (fresh (dom (stateObjs σ)))),
          {| setObjs := setObjs σ;
             stateObjs := <[fresh (dom (stateObjs σ)) := st]> (stateObjs σ) |}).
Proof.
  intros Hl. unfold Clone, bind, deref_state, alloc_state, ret. rewrite Hl.
  by destruct st.
Qed.

Lemma fresh_state_loc (σ : Store) : stateObjs σ !! fresh (dom (stateObjs σ)) = None.
Proof. apply not_elem_of_dom, is_fresh. Qed.

(** C9: cloning a cache entry returns a new entry, at a location that named
    no entry before, whose set is the very set object of the original (the
    same reference; no set is created) and whose counter has the original's
    value at clone time; afterwards [updateWithPod] on the clone returns and
    leaves the original entry as it was, and [updateWithPod] on the original
    returns and leaves the clone as it was. *)
Theorem Clone_independent (σ : Store) (l : loc) (st : preFilterState)
    (content : gset string) :
  entry_at σ l st content ->
  exists l' σ' st',
    Clone (Some l) σ = Some (PreFilterStateData (Some l'), σ')
    /\ l' <> l /\ stateObjs σ !! l' = None
    /\ stateObjs σ' !! l' = Some st'
    /\ readWriteOncePodPVCs st' = readWriteOncePodPVCs st
    /\ conflictingPVCRefCount st' = conflictingPVCRefCount st
    /\ setObjs σ' = setObjs σ
    /\ stateObjs σ' !! l = Some st
    /\ (forall X multiplier,
           exists σ'', updateWithPod (Some l') X multiplier σ' = Some (tt, σ'')
                       /\ stateObjs σ'' !! l = Some st)
    /\ (forall X multiplier,
           exists σ'', updateWithPod (Some l) X multiplier σ' = Some (tt, σ'')
                       /\ stateObjs σ'' !! l' = Some st').
Proof.
  intros [Hl Hs]. pose proof (fresh_state_loc σ) as Hfresh.
  set (l' := fresh (dom (stateObjs σ))) in *.
  assert (Hne : l' <> l) by (intros ->; congruence).
  set (σ' := {| setObjs := setObjs σ; stateObjs := <[l' := st]> (stateObjs σ) |}).
  assert (Hclone : entry_at σ' l' st content).
  { split; [apply lookup_insert_eq|]. by destruct (readWriteOncePodPVCs st). }
  assert (Horig : entry_at σ' l st content).
  { split; [simpl; by rewrite lookup_insert_ne|]. by destruct (readWriteOncePodPVCs st). }
  exists l', σ', st. split; [by apply Clone_spec|].
  split; [exact Hne|]. split; [exact Hfresh|]. split; [apply Hclone|].
  do 3 (split; [reflexivity|]). split; [apply Horig|]. split; intros X multiplier.
  - eexists. split; [by apply updateWithPod_spec|].
    simpl. rewrite lookup_insert_ne by done. apply Horig.
  - eexists. split; [by apply updateWithPod_spec|].
    simpl. rewrite lookup_insert_ne by done. apply Hclone.
Qed.

(** The entry on [{c1}] with counter 0 is cloned. *)
Lemma Clone_independent_witness :
  entry_at Examples.entryStore 1%positive Examples.entryState {[ "c1" ]}
  /\ exists l' σ' st',
      Clone (Some 1%positive) Examples.entryStore = Some (PreFilterStateData (Some l'), σ')
      /\ l' <> 1%positive /\ stateObjs Examples.entryStore !! l' = None
      /\ stateObjs σ' !! l' = Some st'
      /\ readWriteOncePodPVCs st' = readWriteOncePodPVCs Examples.entryState
      /\ conflictingPVCRefCount st' = conflictingPVCRefCount Examples.entryState
      /\ setObjs σ' = setObjs Examples.entryStore
      /\ stateObjs σ' !! 1%positive = Some Examples.entryState
      /\ (forall X multiplier,
             exists σ'', updateWithPod (Some l') X multiplier σ' = Some (tt, σ'')
                         /\ stateObjs σ'' !! 1%positive = Some Examples.entryState)
      /\ (forall X multiplier,
             exists σ'', updateWithPod (Some 1%positive) X multiplier σ' = Some (tt, σ'')
                         /\ stateObjs σ'' !! l' = Some st').
Proof.
  split; [exact entryStore_entry|].
  exact (Clone_independent Examples.entryStore 1%positive Examples.entryState {[ "c1" ]}
           entryStore_entry).
Defined.

(** ** Construction of the cache entry and its updates *)

Lemma filter_length_le_Z {A} (f : A -> bool) (l : list A) :
  0 <= Z.of_nat (length (List.filter f l)) <= Z.of_nat (length l).
Proof.
  induction l as [|x l IH]; simpl; [lia|]. destruct (f x); simpl; lia.
Qed.

Lemma calPreFilterState_loop_spec (pl : VolumeRestrictions) (pod : Pod)
    (keys : list string) (a : Z) :
  calPreFilterState_loop pl pod keys (GoInt.wrap a)
  = GoInt.wrap (a + Z.of_nat (length (List.filter
                                        (fun pvc => sharedLister pl
                                                      (GetNamespacedName (pod_Namespace pod) pvc))
                                        keys))).
Proof.
  revert a. induction keys as [|pvc keys IH]; intros a; simpl.
  - f_equal. lia.
  - destruct (sharedLister pl (GetNamespacedName (pod_Namespace pod) pvc)); [|apply IH].
    unfold GoInt.add. rewrite wrap_add_l, IH. simpl length. f_equal. lia.
Qed.

Lemma inUseCount_bounds (pl : VolumeRestrictions) (namespace : string) (content : gset string) :
  0 <= inUseCount pl namespace content <= Z.of_nat (size content).
Proof. apply filter_length_le_Z. Qed.

Lemma calPreFilterState_spec (pl : VolumeRestrictions) (pod : Pod) (σ : Store)
    (r : option loc) (content : gset string) :
  set_at σ r content ->
  calPreFilterState pl pod r σ
  = Some (inl (Some (fresh (dom (stateObjs σ)))),
          {| setObjs := setObjs σ;
             stateObjs :=
               <[fresh (dom (stateObjs σ)) :=
                   {| readWriteOncePodPVCs := r;
                      conflictingPVCRefCount :=
                        GoInt.wrap (inUseCount pl (pod_Namespace pod) content) |}]>
                 (stateObjs σ) |}).
Proof.
  intros Hs. unfold calPreFilterState, bind. rewrite (deref_set_at _ _ _ Hs).
  unfold alloc_state, ret. change 0 with (GoInt.wrap 0) at 1.
  by rewrite calPreFilterState_loop_spec.
Qed.

Lemma runOps_spec (pl : VolumeRestrictions) (cycleState : CycleState) (podToSchedule : Pod)
    (nodeInfo : NodeInfo) (l : loc) (r : option loc) (content : gset string) (ops : list Op) :
  cycleState !! preFilterStateKey = Some (PreFilterStateData (Some l)) ->
  forall (σ : Store) (c : Z),
    entry_at σ l {| readWriteOncePodPVCs := r; conflictingPVCRefCount := GoInt.wrap c |}
      content ->
    exists σ',
      runOps pl cycleState podToSchedule nodeInfo ops σ
      = Some (replicate (length ops) None, σ')
      /\ entry_at σ' l {| readWriteOncePodPVCs := r;
                          conflictingPVCRefCount := GoInt.wrap (c + signedMatches content ops) |}
           content.
Proof.
  intros Hcs. induction ops as [|op ops IH]; intros σ c He; simpl.
  - exists σ. split; [reflexivity|]. by replace (c + 0) with c by lia.
  - unfold bind at 1.
    destruct op as [podInfo|podInfo].
    + rewrite (AddPod_spec _ _ _ _ _ _ _ _ _ Hcs He). simpl conflictingPVCRefCount.
      rewrite wrap_add_l.
      destruct (IH _ (c + matchCount content (pi_Pod podInfo))
                  (entry_at_setCount _ _ _ _ _ He)) as (σ' & Hrun & He').
      exists σ'. unfold bind. rewrite Hrun. split; [reflexivity|].
      by rewrite Z.add_assoc.
    + rewrite (RemovePod_spec _ _ _ _ _ _ _ _ _ Hcs He). simpl conflictingPVCRefCount.
      replace (GoInt.wrap c - matchCount content (pi_Pod podInfo))
        with (GoInt.wrap c + - matchCount content (pi_Pod podInfo)) by lia.
      rewrite wrap_add_l.
      destruct (IH _ (c + - matchCount content (pi_Pod podInfo))
                  (entry_at_setCount _ _ _ _ _ He)) as (σ' & Hrun & He').
      exists σ'. unfold bind. rewrite Hrun. split; [reflexivity|].
      by rewrite Z.add_assoc.
Qed.

(** C3, as the code has it: the entry [calPreFilterState] creates on a set
    (whose size, the length of a Go map, is an [int]) has a counter equal to
    the number of its claims the index reports in use, hence within
    [0, |exclusiveClaims|]; every later sequence of [AddPod] and
    [RemovePod] calls on it returns success at each step and leaves the
    counter at the initial value plus the signed sum of the match counts of
    the pods (as an [int]), with no clamping to the interval. *)
Theorem conflictingPVCRefCount_created_then_updated (pl : VolumeRestrictions) (pod : Pod)
    (σ : Store) (r : option loc) (content : gset string) :
  set_at σ r content ->
  Z.of_nat (size content) <= GoInt.max_int ->
  exists l σ1 c0,
    calPreFilterState pl pod r σ = Some (inl (Some l), σ1)
    /\ entry_at σ1 l {| readWriteOncePodPVCs := r; conflictingPVCRefCount := c0 |} content
    /\ c0 = inUseCount pl (pod_Namespace pod) content
    /\ 0 <= c0 <= Z.of_nat (size content)
    /\ forall cycleState podToSchedule nodeInfo ops,
         cycleState !! preFilterStateKey = Some (PreFilterStateData (Some l)) ->
         exists σ2,
           runOps pl cycleState podToSchedule nodeInfo ops σ1
           = Some (replicate (length ops) None, σ2)
           /\ entry_at σ2 l
                {| readWriteOncePodPVCs := r;
                   conflictingPVCRefCount := GoInt.wrap (c0 + signedMatches content ops) |}
                content.
Proof.
  intros Hs Hsize.
  pose proof (inUseCount_bounds pl (pod_Namespace pod) content) as Hb.
  assert (Hw : GoInt.wrap (inUseCount pl (pod_Namespace pod) content)
               = inUseCount pl (pod_Namespace pod) content).
  { apply wrap_id. unfold GoInt.in_range, GoInt.min_int, GoInt.max_int, GoInt.bits in *. lia. }
  eexists _, _, _. split; [by apply calPreFilterState_spec|].
  rewrite Hw.
  assert (He : entry_at
                 {| setObjs := setObjs σ;
                    stateObjs :=
                      <[fresh (dom (stateObjs σ)) :=
                          {| readWriteOncePodPVCs := r;
                             conflictingPVCRefCount := inUseCount pl (pod_Namespace pod) content |}]>
                        (stateObjs σ) |}
                 (fresh (dom (stateObjs σ)))
                 {| readWriteOncePodPVCs := r;
                    conflictingPVCRefCount := inUseCount pl (pod_Namespace pod) content |}
                 content).
  { split; [apply lookup_insert_eq|]. by destruct r. }
  split; [exact He|]. split; [reflexivity|]. split; [exact Hb|].
  intros cycleState podToSchedule nodeInfo ops Hcs.
  rewrite <- Hw in He at 2.
  destruct (runOps_spec pl cycleState podToSchedule nodeInfo _ _ _ ops Hcs _ _ He)
    as (σ2 & Hrun & He2).
  exists σ2. split; [exact Hrun|exact He2].
Qed.

Lemma size_c1 : Z.of_nat (size ({[ "c1" ]} : gset string)) <= GoInt.max_int.
Proof. rewrite size_singleton. unfold GoInt.max_int, GoInt.bits. lia. Qed.

(** An entry is created on the set [{c1}] of the example store. *)
Lemma conflictingPVCRefCount_created_then_updated_witness :
  set_at Examples.entryStore (Some 1%positive) {[ "c1" ]}
  /\ Z.of_nat (size ({[ "c1" ]} : gset string)) <= GoInt.max_int
  /\ exists l σ1 c0,
      calPreFilterState Examples.clusterWithFreeClaim Examples.claimant (Some 1%positive)
        Examples.entryStore
      = Some (inl (Some l), σ1)
      /\ entry_at σ1 l {| readWriteOncePodPVCs := Some 1%positive;
                          conflictingPVCRefCount := c0 |} {[ "c1" ]}
      /\ c0 = inUseCount Examples.clusterWithFreeClaim
                (pod_Namespace Examples.claimant) {[ "c1" ]}
      /\ 0 <= c0 <= Z.of_nat (size ({[ "c1" ]} : gset string))
      /\ forall cycleState podToSchedule nodeInfo ops,
           cycleState !! preFilterStateKey = Some (PreFilterStateData (Some l)) ->
           exists σ2,
             runOps Examples.clusterWithFreeClaim cycleState podToSchedule nodeInfo ops σ1
             = Some (replicate (length ops) None, σ2)
             /\ entry_at σ2 l
                  {| readWriteOncePodPVCs := Some 1%positive;
                     conflictingPVCRefCount :=
                       GoInt.wrap (c0 + signedMatches {[ "c1" ]} ops) |}
                  {[ "c1" ]}.
Proof.
  split; [reflexivity|]. split; [exact size_c1|].
  exact (conflictingPVCRefCount_created_then_updated Examples.clusterWithFreeClaim
           Examples.claimant Examples.entryStore (Some 1%positive) {[ "c1" ]}
           eq_refl size_c1).
Defined.

(** C3, as stated, fails: the claim [c1] is exclusive and in use by no
    scheduled pod, and the pod to schedule also mounts a disk, so PreFilter
    writes an entry with the set [{c1}] and the counter 0; a RemovePod for a pod that mounts [c1] then leaves the counter
    at -1, below the interval, and two AddPod for it leave it at 2, above
    the size of the set. *)
Lemma RemovePod_leaves_interval :
  PreFilter Examples.clusterWithFreeClaim ∅ Examples.claimant Examples.emptyStore
  = Some ((None, Examples.entryCycleState), Examples.entryStore)
  /\ size ({[ "c1" ]} : gset string) = 1%nat
  /\ RemovePod Examples.clusterWithFreeClaim Examples.entryCycleState Examples.claimant
       Examples.holder Examples.emptyNode Examples.entryStore
     = Some (None, setCount Examples.entryStore 1%positive Examples.entryState (-1))
  /\ runOps Examples.clusterWithFreeClaim Examples.entryCycleState Examples.claimant
       Examples.emptyNode [OpAddPod Examples.holder; OpAddPod Examples.holder]
       Examples.entryStore
     = Some ([None; None], setCount Examples.entryStore 1%positive Examples.entryState 2).
Proof.
  split; [vm_compute; reflexivity|]. split; [apply size_singleton|].
  split; vm_compute; reflexivity.
Qed.

(** ** The resolver of exclusive claims *)

Lemma ContainsAccessMode_spec (modes : list PersistentVolumeAccessMode)
    (mode : PersistentVolumeAccessMode) :
  ContainsAccessMode modes mode = true <-> mode ∈ modes.
Proof.
  induction modes as [|m modes IH]; simpl.
  - split; [discriminate|]. intros H. inversion H.
  - case_bool_decide as Hm.
    + subst. split; [|reflexivity]. intros _. left.
    + rewrite IH. split; [by right|].
      intros H. apply elem_of_cons in H as [->|H]; [contradiction|done].
Qed.

(** What a successful run of the loop adds to the set it started from. *)
Lemma readWriteOncePodPVCsForPod_loop_ok (pl : VolumeRestrictions) (namespace : string)
    (ignoreNotFoundError : bool) (vols : list Volume) :
  forall acc pvcs,
    readWriteOncePodPVCsForPod_loop pl namespace ignoreNotFoundError vols acc = inl pvcs ->
    forall x, x ∈ pvcs
              <-> x ∈ acc
                  \/ exists v src pvc,
                       v ∈ vols /\ PersistentVolumeClaim v = Some src
                       /\ pvcLister pl namespace (ClaimName src) = inl pvc
                       /\ ReadWriteOncePod ∈ AccessModes pvc
                       /\ pvc_Name pvc = x.
Proof.
  induction vols as [|v vols IH]; intros acc pvcs Hrun x; simpl in Hrun.
  - injection Hrun as <-. split; [by left|].
    intros [H|(v & src & pvc & Hv & _)]; [done|inversion Hv].
  - assert (Hskip : forall acc' : gset string,
               (x ∈ acc' \/ exists v0 src pvc,
                   v0 ∈ vols /\ PersistentVolumeClaim v0 = Some src
                   /\ pvcLister pl namespace (ClaimName src) = inl pvc
                   /\ ReadWriteOncePod ∈ AccessModes pvc /\ pvc_Name pvc = x)
               -> x ∈ acc' \/ exists v0 src pvc,
                   v0 ∈ v :: vols /\ PersistentVolumeClaim v0 = Some src
                   /\ pvcLister pl namespace (ClaimName src) = inl pvc
                   /\ ReadWriteOncePod ∈ AccessModes pvc /\ pvc_Name pvc = x).
    { intros acc' [H|(v0 & src & pvc & Hv & H)]; [by left|].
      right. exists v0, src, pvc. split; [by right|done]. }
    destruct (PersistentVolumeClaim v) as [src|] eqn:Hsrc.
    + destruct (pvcLister pl namespace (ClaimName src)) as [pvc|e] eqn:Hget.
      * destruct (ContainsAccessMode (AccessModes pvc) ReadWriteOncePod) eqn:Hmode;
          simpl in Hrun; rewrite (IH _ _ Hrun x).
        -- apply ContainsAccessMode_spec in Hmode. split.
           ++ intros [Hx|H]; [|by apply Hskip; right].
              apply elem_of_union in Hx as [Hx|Hx]; [|by left].
              apply elem_of_singleton in Hx as ->. right.
              exists v, src, pvc. split; [left|done].
           ++ intros [Hx|(v0 & src0 & pvc0 & Hv & Hs0 & Hg0 & Hm0 & Hn0)].
              ** left. apply elem_of_union. by right.
              ** apply elem_of_cons in Hv as [->|Hv].
                 --- left. apply elem_of_union. left. apply elem_of_singleton.
                     congruence.
                 --- right. by exists v0, src0, pvc0.
        -- split; [apply Hskip|].
           intros [Hx|(v0 & src0 & pvc0 & Hv & Hs0 & Hg0 & Hm0 & Hn0)]; [by left|].
           apply elem_of_cons in Hv as [->|Hv]; [|right; by exists v0, src0, pvc0].
           exfalso. apply ContainsAccessMode_spec in Hm0.
           congruence.
      * destruct (ignoreNotFoundError && IsNotFound e); [|discriminate Hrun].
        rewrite (IH _ _ Hrun x). split; [apply Hskip|].
        intros [Hx|(v0 & src0 & pvc0 & Hv & Hs0 & Hg0 & Hm0 & Hn0)]; [by left|].
        apply elem_of_cons in Hv as [->|Hv]; [|right; by exists v0, src0, pvc0].
        congruence.
    + rewrite (IH _ _ Hrun x). split; [apply Hskip|].
      intros [Hx|(v0 & src0 & pvc0 & Hv & Hs0 & Hg0 & Hm0 & Hn0)]; [by left|].
      apply elem_of_cons in Hv as [->|Hv]; [|right; by exists v0, src0, pvc0].
      congruence.
Qed.

Lemma failsIn_nil (pl : VolumeRestrictions) (namespace : string) (ig : bool) (e : error) :
  ~ failsIn pl namespace ig [] e.
Proof. intros (before & v & src & after & Hsplit & _). by destruct before. Qed.

(** A volume the resolver passes over does not change the failure. *)
Lemma failsIn_cons_passed (pl : VolumeRestrictions) (namespace : string) (ig : bool)
    (v : Volume) (vols : list Volume) (e : error) :
  (forall src, PersistentVolumeClaim v = Some src ->
               passedOver ig (pvcLister pl namespace (ClaimName src))) ->
  failsIn pl namespace ig (v :: vols) e <-> failsIn pl namespace ig vols e.
Proof.
  intros Hv. split.
  - intros (before & v0 & src & after & Hsplit & Hsrc & Hget & Hnf & Hbefore).
    destruct before as [|b before]; simpl in Hsplit; injection Hsplit as <- ->.
    + exfalso. specialize (Hv _ Hsrc). rewrite Hget in Hv. destruct Hv as [-> Hv].
      rewrite Hnf in Hv; [discriminate|reflexivity].
    + exists before, v0, src, after. repeat (split; [done|]).
      intros v' src' Hin. apply Hbefore. by right.
  - intros (before & v0 & src & after & -> & Hsrc & Hget & Hnf & Hbefore).
    exists (v :: before), v0, src, after. repeat (split; [done|]).
    intros v' src' Hin Hsrc'. apply elem_of_cons in Hin as [->|Hin]; [by apply Hv|].
    by eapply Hbefore.
Qed.

(** A volume whose lookup fails with an error that is not passed over is
    the failure. *)
Lemma failsIn_cons_here (pl : VolumeRestrictions) (namespace : string) (ig : bool)
    (v : Volume) (vols : list Volume) (src : PersistentVolumeClaimVolumeSource)
    (e0 e : error) :
  PersistentVolumeClaim v = Some src ->
  pvcLister pl namespace (ClaimName src) = inr e0 ->
  ig && IsNotFound e0 = false ->
  failsIn pl namespace ig (v :: vols) e <-> e = e0.
Proof.
  intros Hsrc Hget Hno. split.
  - intros (before & v0 & src0 & after & Hsplit & Hsrc0 & Hget0 & Hnf & Hbefore).
    destruct before as [|b before]; simpl in Hsplit; injection Hsplit as <- ->.
    + congruence.
    + exfalso. assert (Hin : v ∈ v :: before) by left.
      specialize (Hbefore _ _ Hin Hsrc). rewrite Hget in Hbefore.
      destruct Hbefore as [-> Hnf0]. rewrite Hnf0 in Hno. discriminate Hno.
  - intros ->. exists [], v, src, vols. repeat (split; [done|]). split.
    + intros ->. by destruct (IsNotFound e0).
    + intros v' src' Hin. inversion Hin.
Qed.

Lemma readWriteOncePodPVCsForPod_loop_err (pl : VolumeRestrictions) (namespace : string)
    (ig : bool) (vols : list Volume) :
  forall acc e,
    readWriteOncePodPVCsForPod_loop pl namespace ig vols acc = inr e
    <-> failsIn pl namespace ig vols e.
Proof.
  induction vols as [|v vols IH]; intros acc e; simpl.
  - split; [discriminate|]. intros H. by apply failsIn_nil in H.
  - destruct (PersistentVolumeClaim v) as [src|] eqn:Hsrc.
    + destruct (pvcLister pl namespace (ClaimName src)) as [pvc|e0] eqn:Hget.
      * assert (Hpass : forall src0, PersistentVolumeClaim v = Some src0 ->
                          passedOver ig (pvcLister pl namespace (ClaimName src0))).
        { intros src0 H. rewrite Hsrc in H. injection H as <-. by rewrite Hget. }
        rewrite (failsIn_cons_passed _ _ _ _ _ _ Hpass).
        destruct (negb (ContainsAccessMode (AccessModes pvc) ReadWriteOncePod)); apply IH.
      * destruct (ig && IsNotFound e0) eqn:Hig.
        -- assert (Hpass : forall src0, PersistentVolumeClaim v = Some src0 ->
                             passedOver ig (pvcLister pl namespace (ClaimName src0))).
           { intros src0 H. rewrite Hsrc in H. injection H as <-. rewrite Hget.
             by apply andb_true_iff in Hig. }
           rewrite (failsIn_cons_passed _ _ _ _ _ _ Hpass). apply IH.
        -- rewrite (failsIn_cons_here _ _ _ _ _ _ _ _ Hsrc Hget Hig).
           split; [by intros [= ->]|by intros ->].
    + assert (Hpass : forall src0, PersistentVolumeClaim v = Some src0 ->
                        passedOver ig (pvcLister pl namespace (ClaimName src0))).
      { intros src0 H. congruence. }
      rewrite (failsIn_cons_passed _ _ _ _ _ _ Hpass). apply IH.
Qed.

Lemma PreFilter_lookup_failure (pl : VolumeRestrictions) (cycleState : CycleState)
    (pod : Pod) (σ : Store) (e : error) :
  readWriteOncePodPVCsForPod pl pod false = inr e ->
  PreFilter pl cycleState pod σ = Some ((lookupFailureStatus e, cycleState), σ).
Proof.
  intros He. unfold PreFilter, lookupFailureStatus. rewrite He.
  by destruct (IsNotFound e).
Qed.

(** C6: when it succeeds, the resolver returns exactly the names of the
    claims that a claim-backed volume of the pod references and whose
    resolved claim lists the exclusive mode.  In strict mode it fails exactly
    with the error of the first referenced claim whose lookup fails,
    not-found included, and PreFilter turns a not-found failure into the
    unresolvable status and any other into an error status.  In best-effort
    mode the not-found lookups are passed over and it fails exactly with the
    first other lookup error. *)
Theorem readWriteOncePodPVCsForPod_spec (pl : VolumeRestrictions) (pod : Pod) :
  lister_coherent pl ->
  (forall ignoreNotFoundError pvcs,
      readWriteOncePodPVCsForPod pl pod ignoreNotFoundError = inl pvcs ->
      forall x, x ∈ pvcs
                <-> exists v pvc,
                      v ∈ Volumes (Spec pod)
                      /\ PersistentVolumeClaim v = Some {| ClaimName := x |}
                      /\ pvcLister pl (pod_Namespace pod) x = inl pvc
                      /\ ReadWriteOncePod ∈ AccessModes pvc)
  /\ (forall e, readWriteOncePodPVCsForPod pl pod false = inr e
                <-> firstFailure pl pod false e)
  /\ (forall e, readWriteOncePodPVCsForPod pl pod true = inr e
                <-> IsNotFound e = false /\ firstFailure pl pod true e)
  /\ (forall e cycleState σ,
         readWriteOncePodPVCsForPod pl pod false = inr e ->
         PreFilter pl cycleState pod σ
         = Some ((if IsNotFound e
                  then NewStatus UnschedulableAndUnresolvable [Error_ e]
                  else AsStatus e, cycleState), σ)).
Proof.
  intros Hcoh. split; [|split; [|split]].
  - intros ig pvcs Hrun x.
    rewrite (readWriteOncePodPVCsForPod_loop_ok _ _ _ _ _ _ Hrun x). split.
    + intros [Hx|(v & [c] & pvc & Hv & Hsrc & Hget & Hmode & Hname)]; [set_solver|].
      simpl in Hget. pose proof (Hcoh _ _ _ Hget) as Hc.
      assert (c = x) as -> by congruence. by exists v, pvc.
    + intros (v & pvc & Hv & Hsrc & Hget & Hmode). right.
      exists v, {| ClaimName := x |}, pvc. repeat (split; [done|]).
      by apply (Hcoh _ _ _ Hget).
  - intros e. apply readWriteOncePodPVCsForPod_loop_err.
  - intros e. unfold readWriteOncePodPVCsForPod, firstFailure.
    rewrite readWriteOncePodPVCsForPod_loop_err. split; [|by intros []].
    intros Hf. split; [|done].
    destruct Hf as (_ & _ & _ & _ & _ & _ & _ & Hnf & _). by apply Hnf.
  - intros e cycleState σ He. by apply PreFilter_lookup_failure.
Qed.

Lemma clusterWithFreeClaim_coherent : lister_coherent Examples.clusterWithFreeClaim.
Proof.
  intros namespace name pvc. simpl. case_bool_decide as Hn; [|discriminate].
  intros [= <-]. by rewrite Hn.
Qed.

(** The claim store that holds [c1] is coherent; the pod that mounts [c1]
    resolves to [{c1}]. *)
Lemma readWriteOncePodPVCsForPod_spec_witness :
  lister_coherent Examples.clusterWithFreeClaim
  /\ readWriteOncePodPVCsForPod Examples.clusterWithFreeClaim Examples.claimant false
     = inl {[ "c1" ]}
  /\ (forall ignoreNotFoundError pvcs,
         readWriteOncePodPVCsForPod Examples.clusterWithFreeClaim Examples.claimant
           ignoreNotFoundError = inl pvcs ->
         forall x, x ∈ pvcs
                   <-> exists v pvc,
                         v ∈ Volumes (Spec Examples.claimant)
                         /\ PersistentVolumeClaim v = Some {| ClaimName := x |}
                         /\ pvcLister Examples.clusterWithFreeClaim
                              (pod_Namespace Examples.claimant) x = inl pvc
                         /\ ReadWriteOncePod ∈ AccessModes pvc).
Proof.
  split; [exact clusterWithFreeClaim_coherent|]. split; [vm_compute; reflexivity|].
  exact (proj1 (readWriteOncePodPVCsForPod_spec Examples.clusterWithFreeClaim
                  Examples.claimant clusterWithFreeClaim_coherent)).
Defined.

(** ** PreFilter *)

Lemma needsCheck_loop_spec (vols : list Volume) :
  needsCheck_loop vols = true <-> exists v, v ∈ vols /\ conflictRelevant v.
Proof.
  induction vols as [|v vols IH]; simpl.
  - split; [discriminate|]. intros (v & Hv & _). inversion Hv.
  - destruct (needsRestrictionsCheck v) eqn:Hn.
    + split; [|reflexivity]. intros _. exists v. split; [left|].
      by apply needsRestrictionsCheck_spec.
    + rewrite IH. split; intros (v0 & Hv & Hr).
      * exists v0. split; [by right|done].
      * apply elem_of_cons in Hv as [->|Hv]; [|by exists v0].
        apply needsRestrictionsCheck_spec in Hr. congruence.
Qed.

Lemma PreFilter_resolved (pl : VolumeRestrictions) (cycleState : CycleState) (pod : Pod)
    (σ : Store) (pvcs : gset string) :
  readWriteOncePodPVCsForPod pl pod false = inl pvcs ->
  PreFilter pl cycleState pod σ
  = let c := calPreFilterState_loop pl pod (elements pvcs) 0 in
    Some (if negb (needsCheck_loop (Volumes (Spec pod))) && bool_decide (c = 0)
          then (NewStatus Skip [], cycleState)
          else (None, <[preFilterStateKey :=
                          PreFilterStateData (Some (fresh (dom (stateObjs σ))))]> cycleState),
          preFilterStore σ pvcs c).
Proof.
  intros Hres. unfold PreFilter. rewrite Hres.
  unfold bind at 1, alloc_set. unfold bind at 1.
  unfold calPreFilterState, bind, deref_set, alloc_state, ret, deref_state. simpl.
  rewrite lookup_insert_eq. simpl. rewrite lookup_insert_eq. simpl.
  by destruct (negb (needsCheck_loop (Volumes (Spec pod)))
               && bool_decide (calPreFilterState_loop pl pod (elements pvcs) 0 = 0)).
Qed.


(** C5, as the code has it: PreFilter returns the Skip outcome, with the
    cycle state as it was, exactly when the pod has no volume of the four
    conflict-relevant kinds and the counter computed for it is zero.  The
    counter is computed when the strict resolution of the pod's claims
    succeeds, and is then the number of its exclusive claims the index
    reports in use, as an [int]; when it is computed and the Skip condition
    fails, PreFilter returns success and writes, under the plugin's key, a new
    cache entry that holds the resolved set and the computed counter.  When
    the resolution fails, PreFilter returns the status of the failure and
    leaves the cycle state and the store as they were. *)
Theorem PreFilter_elision (pl : VolumeRestrictions) (cycleState : CycleState) (pod : Pod)
    (σ : Store) :
  ((exists cycleState' σ',
       PreFilter pl cycleState pod σ = Some ((NewStatus Skip [], cycleState'), σ'))
   <-> ~ hasRelevantVolume pod /\ computedCount pl pod = Some 0)
  /\ (forall cycleState' σ',
         PreFilter pl cycleState pod σ = Some ((NewStatus Skip [], cycleState'), σ') ->
         cycleState' = cycleState)
  /\ (forall c,
         computedCount pl pod = Some c ->
         ~ (~ hasRelevantVolume pod /\ c = 0) ->
         exists pvcs l r σ',
           readWriteOncePodPVCsForPod pl pod false = inl pvcs
           /\ PreFilter pl cycleState pod σ
              = Some ((None, CycleState_Write cycleState preFilterStateKey
                               (PreFilterStateData (Some l))), σ')
           /\ stateObjs σ !! l = None
           /\ entry_at σ' l {| readWriteOncePodPVCs := Some r;
                               conflictingPVCRefCount := c |} pvcs)
  /\ (forall pvcs,
         readWriteOncePodPVCsForPod pl pod false = inl pvcs ->
         computedCount pl pod
         = Some (GoInt.wrap (inUseCount pl (pod_Namespace pod) pvcs)))
  /\ (forall e,
         readWriteOncePodPVCsForPod pl pod false = inr e ->
         computedCount pl pod = None
         /\ PreFilter pl cycleState pod σ = Some ((lookupFailureStatus e, cycleState), σ)).
Proof.
  assert (Hneeds : negb (needsCheck_loop (Volumes (Spec pod))) = true
                   <-> ~ hasRelevantVolume pod).
  { unfold hasRelevantVolume. rewrite <- needsCheck_loop_spec.
    destruct (needsCheck_loop (Volumes (Spec pod))); simpl; split; done. }
  unfold computedCount.
  destruct (readWriteOncePodPVCsForPod pl pod false) as [pvcs|e] eqn:Hres.
  - rewrite (PreFilter_resolved _ _ _ _ _ Hres). cbv zeta.
    set (c := calPreFilterState_loop pl pod (elements pvcs) 0).
    assert (Hcond : negb (needsCheck_loop (Volumes (Spec pod))) && bool_decide (c = 0) = true
                    <-> ~ hasRelevantVolume pod /\ Some c = Some 0).
    { rewrite andb_true_iff, bool_decide_eq_true, Hneeds.
      split; intros [H1 H2]; (split; [done|congruence]). }
    destruct (negb (needsCheck_loop (Volumes (Spec pod))) && bool_decide (c = 0)) eqn:Hskip.
    + split; [|split; [|split; [|split; [|by intros e [=]]]]].
      * split; [intros _; by apply Hcond|]. intros _. by eexists _, _.
      * by intros cs' σ' [= <- _].
      * intros c' [= <-] Hno. exfalso. apply Hno.
        destruct (proj1 Hcond eq_refl) as [H1 H2]. split; [done|congruence].
      * intros pvcs' [= <-]. subst c. f_equal.
        change 0 with (GoInt.wrap 0) at 1. by rewrite calPreFilterState_loop_spec.
    + split; [|split; [|split; [|split; [|by intros e [=]]]]].
      * split; [by intros (cs' & σ' & [=])|]. intros H. apply Hcond in H. discriminate H.
      * by intros cs' σ' [=].
      * intros c' [= <-] _.
        exists pvcs, (fresh (dom (stateObjs σ))), (fresh (dom (setObjs σ))), (preFilterStore σ pvcs c).
        split; [reflexivity|]. split; [reflexivity|]. split; [apply fresh_state_loc|].
        split; apply lookup_insert_eq.
      * intros pvcs' [= <-]. subst c. f_equal.
        change 0 with (GoInt.wrap 0) at 1. by rewrite calPreFilterState_loop_spec.
  - rewrite (PreFilter_lookup_failure _ _ _ _ _ Hres).
    split; [|split; [|split; [|split; [|by intros e' [= <-]]]]].
    + split.
      * intros (cs' & σ' & H). exfalso. unfold lookupFailureStatus in H.
        destruct (IsNotFound e); discriminate H.
      * by intros [_ [=]].
    + intros cs' σ' H. unfold lookupFailureStatus in H.
      destruct (IsNotFound e); discriminate H.
    + by intros c [=].
    + by intros pvcs [=].
Qed.

(** C5, as stated, fails: the pod mounts a claim that the claim store does
    not hold.  It has no conflict-relevant volume and no counter is computed
    for it; PreFilter returns neither the Skip outcome nor success, but the
    unresolvable status, and writes nothing. *)
Lemma PreFilter_neither_skip_nor_success :
  computedCount Examples.emptyCluster Examples.orphan = None
  /\ PreFilter Examples.emptyCluster ∅ Examples.orphan Examples.emptyStore
     = Some ((NewStatus UnschedulableAndUnresolvable ["c2"], ∅), Examples.emptyStore)
  /\ NewStatus UnschedulableAndUnresolvable ["c2"] <> NewStatus Skip []
  /\ NewStatus UnschedulableAndUnresolvable ["c2"] <> None.
Proof. repeat split; discriminate. Qed.

(** ** The claim-change predicate *)

Lemma claimChange_loop_err (pl : VolumeRestrictions) (namespace : string)
    (vols : list Volume) :
  forall acc r,
    claimChange_loop pl namespace vols acc = inr r
    <-> exists e, failsIn pl namespace false vols e /\ r = lookupFailureHint e.
Proof.
  induction vols as [|v vols IH]; intros acc r; simpl.
  - split; [discriminate|]. intros (e & H & _). by apply failsIn_nil in H.
  - destruct (PersistentVolumeClaim v) as [src|] eqn:Hsrc.
    + destruct (pvcLister pl namespace (ClaimName src)) as [pvc|e0] eqn:Hget.
      * assert (Hpass : forall src0, PersistentVolumeClaim v = Some src0 ->
                          passedOver false (pvcLister pl namespace (ClaimName src0))).
        { intros src0 H. rewrite Hsrc in H. injection H as <-. by rewrite Hget. }
        rewrite IH. split; intros (e & Hf & Hr); exists e; (split; [|done]);
          by apply (failsIn_cons_passed _ _ _ _ _ _ Hpass).
      * split.
        -- intros Hr. exists e0.
           split; [by apply (failsIn_cons_here _ _ false _ _ _ _ _ Hsrc Hget eq_refl)|].
           unfold lookupFailureHint. destruct (IsNotFound e0); congruence.
        -- intros (e & Hf & ->).
           apply (failsIn_cons_here _ _ false _ _ _ _ _ Hsrc Hget eq_refl) in Hf as ->.
           unfold lookupFailureHint. by destruct (IsNotFound e0).
    + assert (Hpass : forall src0, PersistentVolumeClaim v = Some src0 ->
                        passedOver false (pvcLister pl namespace (ClaimName src0))).
      { intros src0 H. congruence. }
      rewrite IH. split; intros (e & Hf & Hr); exists e; (split; [|done]);
        by apply (failsIn_cons_passed _ _ _ _ _ _ Hpass).
Qed.

Lemma claimChange_loop_ok (pl : VolumeRestrictions) (namespace : string)
    (vols : list Volume) :
  forall acc pvcs,
    claimChange_loop pl namespace vols acc = inl pvcs ->
    (forall v src, v ∈ vols -> PersistentVolumeClaim v = Some src ->
                   exists pvc, pvcLister pl namespace (ClaimName src) = inl pvc)
    /\ forall x, x ∈ pvcs
                 <-> x ∈ acc
                     \/ exists v src pvc,
                          v ∈ vols /\ PersistentVolumeClaim v = Some src
                          /\ pvcLister pl namespace (ClaimName src) = inl pvc
                          /\ pvc_Name pvc = x.
Proof.
  induction vols as [|v vols IH]; intros acc pvcs Hrun; simpl in Hrun.
  - injection Hrun as <-. split; [intros v src Hv; inversion Hv|].
    intros x. split; [by left|]. intros [H|(v & src & pvc & Hv & _)]; [done|inversion Hv].
  - destruct (PersistentVolumeClaim v) as [src|] eqn:Hsrc.
    + destruct (pvcLister pl namespace (ClaimName src)) as [pvc|e] eqn:Hget.
      * destruct (IH _ _ Hrun) as [Hall Hmem]. split.
        -- intros v0 src0 Hv Hs0. apply elem_of_cons in Hv as [->|Hv]; [|by eapply Hall].
           exists pvc. congruence.
        -- intros x. rewrite Hmem. split.
           ++ intros [Hx|(v0 & src0 & pvc0 & Hv & H)].
              ** apply elem_of_union in Hx as [Hx|Hx]; [|by left].
                 apply elem_of_singleton in Hx as ->. right.
                 exists v, src, pvc. split; [left|done].
              ** right. exists v0, src0, pvc0. split; [by right|done].
           ++ intros [Hx|(v0 & src0 & pvc0 & Hv & Hs0 & Hg0 & Hn0)].
              ** left. apply elem_of_union. by right.
              ** apply elem_of_cons in Hv as [->|Hv]; [|right; by exists v0, src0, pvc0].
                 left. apply elem_of_union. left. apply elem_of_singleton. congruence.
      * destruct (IsNotFound e); discriminate Hrun.
    + destruct (IH _ _ Hrun) as [Hall Hmem]. split.
      * intros v0 src0 Hv Hs0. apply elem_of_cons in Hv as [->|Hv]; [congruence|].
        by eapply Hall.
      * intros x. rewrite Hmem. split.
        -- intros [Hx|(v0 & src0 & pvc0 & Hv & H)]; [by left|].
           right. exists v0, src0, pvc0. split; [by right|done].
        -- intros [Hx|(v0 & src0 & pvc0 & Hv & Hs0 & H)]; [by left|].
           apply elem_of_cons in Hv as [->|Hv]; [congruence|].
           right. by exists v0, src0, pvc0.
Qed.

Lemma failsIn_not_allResolve (pl : VolumeRestrictions) (pod : Pod) (ig : bool) (e : error) :
  failsIn pl (pod_Namespace pod) ig (Volumes (Spec pod)) e -> ~ allResolve pl pod.
Proof.
  intros (before & v & src & after & Hsplit & Hsrc & Hget & _) Hall.
  destruct (Hall v src) as [pvc Hpvc]; [|done|congruence].
  rewrite Hsplit. apply elem_of_app. right. left.
Qed.

(** The outcome of the claim-change predicate on the creation of a claim in
    the pod's namespace. *)
Lemma claimChange_created (pl : VolumeRestrictions) (pod : Pod)
    (newPVC : PersistentVolumeClaimObject) :
  pvc_Namespace newPVC = pod_Namespace pod ->
  isSchedulableAfterPersistentVolumeClaimChange pl pod ObjNil (ObjPVC newPVC)
  = Some match claimChange_loop pl (pod_Namespace pod) (Volumes (Spec pod)) ∅ with
         | inr early => early
         | inl pvcs => if sets_Has pvcs (pvc_Name newPVC) then (Queue, None)
                       else (QueueSkip, None)
         end.
Proof.
  intros Hns. unfold isSchedulableAfterPersistentVolumeClaimChange. simpl.
  rewrite bool_decide_eq_true_2 by done. simpl.
  destruct (claimChange_loop pl (pod_Namespace pod) (Volumes (Spec pod)) ∅) as [pvcs|early];
    [|done].
  by destruct (sets_Has pvcs (pvc_Name newPVC)).
Qed.

Lemma claimChange_other_namespace (pl : VolumeRestrictions) (pod : Pod)
    (newPVC : PersistentVolumeClaimObject) :
  pvc_Namespace newPVC <> pod_Namespace pod ->
  isSchedulableAfterPersistentVolumeClaimChange pl pod ObjNil (ObjPVC newPVC)
  = Some (QueueSkip, None).
Proof.
  intros Hns. unfold isSchedulableAfterPersistentVolumeClaimChange. simpl.
  by rewrite bool_decide_eq_false_2.
Qed.

Lemma claimChange_requeue (pl : VolumeRestrictions) (pod : Pod)
    (newPVC : PersistentVolumeClaimObject) :
  lister_coherent pl ->
  pvc_Namespace newPVC = pod_Namespace pod ->
  isSchedulableAfterPersistentVolumeClaimChange pl pod ObjNil (ObjPVC newPVC)
  = Some (Queue, None)
  <-> allResolve pl pod /\ referencesClaim pod (pvc_Name newPVC).
Proof.
  intros Hcoh Hns. rewrite (claimChange_created _ _ _ Hns).
  destruct (claimChange_loop pl (pod_Namespace pod) (Volumes (Spec pod)) ∅)
    as [pvcs|early] eqn:Hloop.
  - destruct (claimChange_loop_ok _ _ _ _ _ Hloop) as [Hall Hmem].
    unfold sets_Has. case_bool_decide as Hin.
    + split; [|done]. intros _. split; [exact Hall|].
      apply Hmem in Hin as [Hin|(v & [c] & pvc & Hv & Hsrc & Hget & Hname)]; [set_solver|].
      exists v. split; [done|]. rewrite Hsrc. do 2 f_equal.
      simpl in Hget. rewrite <- (Hcoh _ _ _ Hget). done.
    + split; [discriminate|]. intros [_ (v & Hv & Hsrc)]. exfalso. apply Hin.
      destruct (Hall _ _ Hv Hsrc) as [pvc Hget]. apply Hmem. right.
      exists v, {| ClaimName := pvc_Name newPVC |}, pvc. repeat (split; [done|]).
      by apply (Hcoh _ _ _ Hget).
  - apply claimChange_loop_err in Hloop as (e & Hf & ->). split.
    + unfold lookupFailureHint. destruct (IsNotFound e); discriminate.
    + intros [Hall _]. by apply failsIn_not_allResolve in Hf.
Qed.

Lemma claimChange_error (pl : VolumeRestrictions) (pod : Pod)
    (newPVC : PersistentVolumeClaimObject) (e : error) :
  pvc_Namespace newPVC = pod_Namespace pod ->
  isSchedulableAfterPersistentVolumeClaimChange pl pod ObjNil (ObjPVC newPVC)
  = Some (Queue, Some e)
  <-> firstFailure pl pod false e /\ IsNotFound e = false.
Proof.
  intros Hns. rewrite (claimChange_created _ _ _ Hns).
  destruct (claimChange_loop pl (pod_Namespace pod) (Volumes (Spec pod)) ∅)
    as [pvcs|early] eqn:Hloop.
  - split.
    + destruct (sets_Has pvcs (pvc_Name newPVC)); discriminate.
    + intros [Hf _]. exfalso.
      assert (Hex : exists e0, failsIn pl (pod_Namespace pod) false (Volumes (Spec pod)) e0
                               /\ lookupFailureHint e = lookupFailureHint e0)
        by (by exists e).
      pose proof (proj2 (claimChange_loop_err pl (pod_Namespace pod) (Volumes (Spec pod))
                           ∅ (lookupFailureHint e)) Hex) as Hrun.
      rewrite Hloop in Hrun. discriminate Hrun.
  - pose proof Hloop as Hl. apply claimChange_loop_err in Hl as (e0 & Hf & ->). split.
    + unfold lookupFailureHint. destruct (IsNotFound e0) eqn:Hnf; [discriminate|].
      by intros [= <-].
    + intros [Hf' Hnf].
      assert (Hex : exists e1, failsIn pl (pod_Namespace pod) false (Volumes (Spec pod)) e1
                               /\ lookupFailureHint e = lookupFailureHint e1)
        by (by exists e).
      pose proof (proj2 (claimChange_loop_err pl (pod_Namespace pod) (Volumes (Spec pod))
                           ∅ (lookupFailureHint e)) Hex) as Hrun.
      rewrite Hloop in Hrun. injection Hrun as ->. unfold lookupFailureHint. by rewrite Hnf.
Qed.

(** C8, as the code has it: an update to an existing claim always yields
    skip.  On a creation the predicate returns requeue without an error
    exactly when the new claim is in the pod's namespace, every claim the
    pod's claim-backed volumes reference is in the claim store, and the new
    claim's name is among the referenced names; it returns requeue paired
    with an error exactly when the new claim is in the pod's namespace and the
    first failing lookup is an error other than not-found; in every other
    case it returns skip. *)
Theorem claimChange_outcome (pl : VolumeRestrictions) (pod : Pod) :
  lister_coherent pl ->
  (forall oldPVC newPVC,
      isSchedulableAfterPersistentVolumeClaimChange pl pod (ObjPVC oldPVC) (ObjPVC newPVC)
      = Some (QueueSkip, None))
  /\ (forall newPVC,
         isSchedulableAfterPersistentVolumeClaimChange pl pod ObjNil (ObjPVC newPVC)
         = Some (Queue, None)
         <-> pvc_Namespace newPVC = pod_Namespace pod
             /\ allResolve pl pod
             /\ referencesClaim pod (pvc_Name newPVC))
  /\ (forall newPVC e,
         isSchedulableAfterPersistentVolumeClaimChange pl pod ObjNil (ObjPVC newPVC)
         = Some (Queue, Some e)
         <-> pvc_Namespace newPVC = pod_Namespace pod
             /\ firstFailure pl pod false e /\ IsNotFound e = false)
  /\ (forall newPVC,
         isSchedulableAfterPersistentVolumeClaimChange pl pod ObjNil (ObjPVC newPVC)
         = Some (QueueSkip, None)
         \/ isSchedulableAfterPersistentVolumeClaimChange pl pod ObjNil (ObjPVC newPVC)
            = Some (Queue, None)
         \/ exists e,
              isSchedulableAfterPersistentVolumeClaimChange pl pod ObjNil (ObjPVC newPVC)
              = Some (Queue, Some e)).
Proof.
  intros Hcoh. split; [reflexivity|]. split; [|split].
  - intros newPVC.
    destruct (decide (pvc_Namespace newPVC = pod_Namespace pod)) as [Hns|Hns].
    + rewrite (claimChange_requeue _ _ _ Hcoh Hns). tauto.
    + rewrite (claimChange_other_namespace _ _ _ Hns). split; [discriminate|tauto].
  - intros newPVC e.
    destruct (decide (pvc_Namespace newPVC = pod_Namespace pod)) as [Hns|Hns].
    + rewrite (claimChange_error _ _ _ _ Hns). tauto.
    + rewrite (claimChange_other_namespace _ _ _ Hns). split; [discriminate|tauto].
  - intros newPVC.
    destruct (decide (pvc_Namespace newPVC = pod_Namespace pod)) as [Hns|Hns].
    + rewrite (claimChange_created _ _ _ Hns).
      destruct (claimChange_loop pl (pod_Namespace pod) (Volumes (Spec pod)) ∅)
        as [pvcs|early] eqn:Hloop.
      * destruct (sets_Has pvcs (pvc_Name newPVC)); tauto.
      * apply claimChange_loop_err in Hloop as (e & _ & ->). unfold lookupFailureHint.
        destruct (IsNotFound e); [tauto|]. right. right. by exists e.
    + left. by apply claimChange_other_namespace.
Qed.

(** The creation of [c1] for a pod that mounts [c1] only. *)
Lemma claimChange_outcome_witness :
  lister_coherent Examples.clusterWithFreeClaim
  /\ (isSchedulableAfterPersistentVolumeClaimChange Examples.clusterWithFreeClaim
        Examples.claimant ObjNil (ObjPVC Examples.claimC1)
      = Some (Queue, None)
      <-> pvc_Namespace Examples.claimC1 = pod_Namespace Examples.claimant
          /\ allResolve Examples.clusterWithFreeClaim Examples.claimant
          /\ referencesClaim Examples.claimant (pvc_Name Examples.claimC1)).
Proof.
  split; [exact clusterWithFreeClaim_coherent|].
  exact (proj1 (proj2 (claimChange_outcome Examples.clusterWithFreeClaim Examples.claimant
                         clusterWithFreeClaim_coherent)) Examples.claimC1).
Defined.

(** C8, as stated, fails: the event is the creation of [c1] in the pod's
    namespace and the pod references [c1], but it references the missing
    claim [c2] first; the predicate returns skip. *)
Lemma claimChange_skip_although_referenced :
  pvc_Namespace Examples.claimC1 = pod_Namespace Examples.twoClaims
  /\ referencesClaim Examples.twoClaims (pvc_Name Examples.claimC1)
  /\ isSchedulableAfterPersistentVolumeClaimChange Examples.clusterWithFreeClaim
       Examples.twoClaims ObjNil (ObjPVC Examples.claimC1)
     = Some (QueueSkip, None).
Proof.
  split; [reflexivity|]. split; [|reflexivity].
  exists (Examples.claimVolume "second" "c1"). split; [|reflexivity].
  right. left.
Qed.

(** C10, as the code has it: on the creation of a claim in the pod's
    namespace, when the first failing lookup among the claims the pod's
    claim-backed volumes reference, in the order of the volumes, returns
    not-found, the predicate returns skip without an error, whether or not
    the new claim's name is among the referenced names; it returns requeue
    without an error only when every referenced claim resolves; when the
    first failing lookup is an error other than not-found, so that a lookup
    fails with another error before any not-found one, it returns requeue
    paired with that error; and conversely, whenever it returns an error, the
    hint is requeue and the error is that of the first failing lookup, which
    is not a not-found error. *)
Theorem claimChange_not_found_skips (pl : VolumeRestrictions) (pod : Pod)
    (newPVC : PersistentVolumeClaimObject) :
  pvc_Namespace newPVC = pod_Namespace pod ->
  ((exists e, firstFailure pl pod false e /\ IsNotFound e = true) ->
   isSchedulableAfterPersistentVolumeClaimChange pl pod ObjNil (ObjPVC newPVC)
   = Some (QueueSkip, None))
  /\ (isSchedulableAfterPersistentVolumeClaimChange pl pod ObjNil (ObjPVC newPVC)
      = Some (Queue, None) ->
      allResolve pl pod)
  /\ (forall e,
         firstFailure pl pod false e -> IsNotFound e = false ->
         isSchedulableAfterPersistentVolumeClaimChange pl pod ObjNil (ObjPVC newPVC)
         = Some (Queue, Some e))
  /\ (forall hint e,
         isSchedulableAfterPersistentVolumeClaimChange pl pod ObjNil (ObjPVC newPVC)
         = Some (hint, Some e) ->
         hint = Queue /\ firstFailure pl pod false e /\ IsNotFound e = false).
Proof.
  intros Hns.
  assert (Herr : forall e,
             firstFailure pl pod false e -> IsNotFound e = false ->
             isSchedulableAfterPersistentVolumeClaimChange pl pod ObjNil (ObjPVC newPVC)
             = Some (Queue, Some e)).
  { intros e Hf Hnf. by apply (claimChange_error _ _ _ _ Hns). }
  revert Herr. rewrite (claimChange_created _ _ _ Hns). intros Herr.
  destruct (claimChange_loop pl (pod_Namespace pod) (Volumes (Spec pod)) ∅)
    as [pvcs|early] eqn:Hloop.
  - destruct (claimChange_loop_ok _ _ _ _ _ Hloop) as [Hall _].
    split; [|split; [|split; [exact Herr|]]].
    + intros (e & Hf & _). by apply failsIn_not_allResolve in Hf.
    + intros _. exact Hall.
    + intros hint e. destruct (sets_Has pvcs (pvc_Name newPVC)); discriminate.
  - pose proof Hloop as Hl. apply claimChange_loop_err in Hl as (e0 & Hf0 & ->).
    split; [|split; [|split; [exact Herr|]]].
    + intros (e & Hf & Hnf).
      assert (Hex : exists e1, failsIn pl (pod_Namespace pod) false (Volumes (Spec pod)) e1
                               /\ lookupFailureHint e = lookupFailureHint e1)
        by (by exists e).
      pose proof (proj2 (claimChange_loop_err pl (pod_Namespace pod) (Volumes (Spec pod))
                           ∅ (lookupFailureHint e)) Hex) as Hrun.
      rewrite Hloop in Hrun. injection Hrun as ->. unfold lookupFailureHint. by rewrite Hnf.
    + unfold lookupFailureHint. destruct (IsNotFound e0); discriminate.
    + intros hint e. unfold lookupFailureHint.
      destruct (IsNotFound e0) eqn:Hnf; [discriminate|]. by intros [= <- <-].
Qed.

Lemma twoClaims_first_failure :
  exists e, firstFailure Examples.clusterWithFreeClaim Examples.twoClaims false e
            /\ IsNotFound e = true.
Proof.
  exists (NotFoundError "c2"). split; [|reflexivity].
  exists [], (Examples.claimVolume "first" "c2"), {| ClaimName := "c2" |},
    [Examples.claimVolume "second" "c1"].
  repeat (split; [reflexivity|]). split; [discriminate|].
  intros v' src' Hin. inversion Hin.
Qed.

(** The creation of [c1] for a pod that mounts the missing [c2] first. *)
Lemma claimChange_not_found_skips_witness :
  pvc_Namespace Examples.claimC1 = pod_Namespace Examples.twoClaims
  /\ (exists e, firstFailure Examples.clusterWithFreeClaim Examples.twoClaims false e
                /\ IsNotFound e = true)
  /\ isSchedulableAfterPersistentVolumeClaimChange Examples.clusterWithFreeClaim
       Examples.twoClaims ObjNil (ObjPVC Examples.claimC1)
     = Some (QueueSkip, None).
Proof.
  split; [reflexivity|]. split; [exact twoClaims_first_failure|].
  exact (proj1 (claimChange_not_found_skips Examples.clusterWithFreeClaim
                  Examples.twoClaims Examples.claimC1 eq_refl)
           twoClaims_first_failure).
Defined.

(** C10, as stated, fails: the pod references [c0], whose lookup fails with
    an error other than not-found, and then [c2], whose lookup returns
    not-found; on the creation of [c2] in the pod's namespace the predicate
    returns requeue paired with the error of the first lookup, not skip
    without an error. *)
Lemma claimChange_error_before_not_found :
  pvc_Namespace Examples.claimC2 = pod_Namespace Examples.flakyThenMissing
  /\ referencesClaim Examples.flakyThenMissing "c2"
  /\ pvcLister Examples.flakyCluster (pod_Namespace Examples.flakyThenMissing) "c2"
     = inr (NotFoundError "c2")
  /\ isSchedulableAfterPersistentVolumeClaimChange Examples.flakyCluster
       Examples.flakyThenMissing ObjNil (ObjPVC Examples.claimC2)
     = Some (Queue, Some (OtherError "store unavailable")).
Proof.
  split; [reflexivity|]. split; [|split; reflexivity].
  exists (Examples.claimVolume "second" "c2"). split; [|reflexivity].
  right. left.
Qed.

(** ** The pod-deletion predicate *)

Lemma sharesPVC_loop_spec (keys : list string) (newPodPvcs : gset string) :
  sharesPVC_loop keys newPodPvcs = true <-> exists x, x ∈ newPodPvcs /\ x ∈ keys.
Proof.
  induction keys as [|pvc keys IH]; simpl.
  - split; [discriminate|]. intros (x & _ & Hx). inversion Hx.
  - unfold sets_Has. case_bool_decide as Hin.
    + split; [|reflexivity]. intros _. exists pvc. split; [done|left].
    + rewrite IH. split; intros (x & Hx & Hk).
      * exists x. split; [done|by right].
      * apply elem_of_cons in Hk as [->|Hk]; [contradiction|by exists x].
Qed.

Lemma sharesPVC_spec (newPodPvcs deletedPodPvcs : gset string) :
  sharesPVC_loop (elements deletedPodPvcs) newPodPvcs = true
  <-> shareClaim newPodPvcs deletedPodPvcs.
Proof.
  rewrite sharesPVC_loop_spec. unfold shareClaim.
  split; intros (x & Hx & Hk); exists x; (split; [done|]); by apply elem_of_elements.
Qed.

Lemma single_pod_node_conflict (pod deletedPod : Pod) :
  satisfyVolumeConflicts pod (NewNodeInfo [deletedPod]) = false
  <-> conflictsWithPod pod deletedPod.
Proof.
  rewrite satisfyVolumeConflicts_spec. unfold disk_conflict, conflictsWithPod. simpl. split.
  - intros (v & ev & e & Hv & Hr & Hev & He & Hc).
    apply list_elem_of_singleton in Hev as ->. by exists v, e.
  - intros (v & e & Hv & Hr & He & Hc).
    exists v, {| pi_Pod := deletedPod |}, e. repeat (split; [done|]).
    split; [left|done].
Qed.

(** C7, as the code has it: on the deletion of a pod D the predicate returns
    skip when D's namespace differs from P's.  Otherwise, when the strict
    resolution of P's exclusive claims fails, it returns skip if the failure
    is a not-found and requeue paired with the error if not; when the
    best-effort resolution of D's exclusive claims fails, it returns requeue
    paired with the error.  Otherwise it returns requeue when some claim name
    lies in both sets; and otherwise it runs the conflict check of P against
    a node that holds D alone and returns requeue exactly when that check
    finds a conflict between a conflict-relevant volume of P and a volume of
    D, and skip exactly when it finds none. *)
Theorem afterPodDeleted_outcome (pl : VolumeRestrictions) (pod deletedPod : Pod) :
  (pod_Namespace deletedPod <> pod_Namespace pod ->
   afterPodDeleted pl pod deletedPod = Some (QueueSkip, None))
  /\ (pod_Namespace deletedPod = pod_Namespace pod ->
      (forall e,
          readWriteOncePodPVCsForPod pl pod false = inr e ->
          afterPodDeleted pl pod deletedPod
          = Some (if IsNotFound e then (QueueSkip, None) else (Queue, Some e)))
      /\ (forall newPodPvcs,
             readWriteOncePodPVCsForPod pl pod false = inl newPodPvcs ->
             (forall e,
                 readWriteOncePodPVCsForPod pl deletedPod true = inr e ->
                 afterPodDeleted pl pod deletedPod = Some (Queue, Some e))
             /\ (forall deletedPodPvcs,
                    readWriteOncePodPVCsForPod pl deletedPod true = inl deletedPodPvcs ->
                    (shareClaim newPodPvcs deletedPodPvcs ->
                     afterPodDeleted pl pod deletedPod = Some (Queue, None))
                    /\ (~ shareClaim newPodPvcs deletedPodPvcs ->
                        (afterPodDeleted pl pod deletedPod = Some (Queue, None)
                         <-> conflictsWithPod pod deletedPod)
                        /\ (afterPodDeleted pl pod deletedPod = Some (QueueSkip, None)
                            <-> ~ conflictsWithPod pod deletedPod))))).
Proof.
  unfold afterPodDeleted, isSchedulableAfterPodDeleted. simpl. split.
  - intros Hns. by rewrite bool_decide_eq_false_2.
  - intros Hns. rewrite bool_decide_eq_true_2 by done. simpl. split.
    + intros e ->. by destruct (IsNotFound e).
    + intros newPodPvcs ->. split; [by intros e ->|].
      intros deletedPodPvcs ->.
      pose proof (sharesPVC_spec newPodPvcs deletedPodPvcs) as Hshare.
      destruct (sharesPVC_loop (elements deletedPodPvcs) newPodPvcs).
      * split; [done|]. intros Hno. exfalso. apply Hno. by apply Hshare.
      * split; [intros Hs; apply Hshare in Hs; discriminate Hs|]. intros _.
        pose proof (single_pod_node_conflict pod deletedPod) as Hconf.
        destruct (satisfyVolumeConflicts pod (NewNodeInfo [deletedPod])); simpl.
        -- split; split; try done.
           ++ intros Hc. apply Hconf in Hc. discriminate Hc.
           ++ intros _ Hc. apply Hconf in Hc. discriminate Hc.
        -- split; split; try done.
           ++ intros _. by apply Hconf.
           ++ intros Hno. exfalso. apply Hno. by apply Hconf.
Qed.

(** C7, as stated, fails.  P and D share a namespace.  When P mounts a disk
    and D has no volume, the check of P against the node that holds D alone
    finds no conflict, and the predicate returns skip; when D mounts the disk
    P mounts, the check finds a conflict, and the predicate returns requeue.
    And when the resolution of P's claims fails with an error other than
    not-found, the predicate returns requeue paired with the error, although
    no claim is shared and the check finds no conflict. *)
Lemma afterPodDeleted_requeues_on_conflict :
  (satisfyVolumeConflicts Examples.diskUser (NewNodeInfo [Examples.bare]) = true
   /\ afterPodDeleted Examples.emptyCluster Examples.diskUser Examples.bare
      = Some (QueueSkip, None))
  /\ (satisfyVolumeConflicts Examples.diskUser (NewNodeInfo [Examples.otherDiskUser]) = false
      /\ afterPodDeleted Examples.emptyCluster Examples.diskUser Examples.otherDiskUser
         = Some (Queue, None))
  /\ (readWriteOncePodPVCsForPod Examples.flakyCluster Examples.flakyOnly false
      = inr (OtherError "store unavailable")
      /\ readWriteOncePodPVCsForPod Examples.flakyCluster Examples.bare true = inl ∅
      /\ satisfyVolumeConflicts Examples.flakyOnly (NewNodeInfo [Examples.bare]) = true
      /\ afterPodDeleted Examples.flakyCluster Examples.flakyOnly Examples.bare
         = Some (Queue, Some (OtherError "store unavailable"))).
Proof. repeat split; vm_compute; reflexivity. Qed.

(** ** The scenarios of the specification *)

(** Two read-write mounts of one image that share the monitor [m2]: Filter
    rejects with the disk-conflict reason. *)
Example scenario_rbd_conflict :
  Filter Examples.emptyCluster ∅ Examples.podA Examples.nodeN Examples.emptyStore
  = Some (NewStatus Unschedulable [ErrReasonDiskConflict], Examples.emptyStore).
Proof. vm_compute. reflexivity. Qed.

(** The exclusive claim [c1] is in use: PreFilter writes an entry with the
    counter 1, and Filter rejects on any node with the exclusive-claim
    reason. *)
Example scenario_claim_in_use :
  PreFilter Examples.clusterWithHeldClaim ∅ Examples.podP Examples.emptyStore
  = Some ((None, Examples.entryCycleState), Examples.heldStore)
  /\ Filter Examples.clusterWithHeldClaim Examples.entryCycleState Examples.podP
       Examples.emptyNode Examples.heldStore
     = Some (NewStatus Unschedulable [ErrReasonReadWriteOncePodConflict], Examples.heldStore).
Proof. split; vm_compute; reflexivity. Qed.

(** The pod that held [c1] is deleted: the predicate returns requeue. *)
Example scenario_holder_deleted :
  afterPodDeleted Examples.clusterWithHeldClaim Examples.podP (pi_Pod Examples.holder)
  = Some (Queue, None).
Proof. vm_compute. reflexivity. Qed.

(** The claim [c2] a pod waits for is created, and later updated. *)
Example scenario_claim_created_then_updated :
  isSchedulableAfterPersistentVolumeClaimChange
    {| pvcLister := fun _ name => inl {| pvc_Name := name; pvc_Namespace := "default";
                                         AccessModes := [ReadWriteOnce] |};
       sharedLister := fun _ => false |}
    Examples.orphan ObjNil (ObjPVC Examples.claimC2)
  = Some (Queue, None)
  /\ isSchedulableAfterPersistentVolumeClaimChange Examples.emptyCluster Examples.orphan
       (ObjPVC Examples.claimC2) (ObjPVC Examples.claimC2)
     = Some (QueueSkip, None).
Proof. split; vm_compute; reflexivity. Qed.

(** A pod without conflict-relevant volumes and without exclusive claims in
    use: the elided outcome. *)
Example scenario_elision :
  exists σ, PreFilter Examples.clusterWithFreeClaim ∅ Examples.podP Examples.emptyStore
            = Some ((NewStatus Skip [], ∅), σ).
Proof. eexists. vm_compute. reflexivity. Qed.

(** * Further properties of the plugin *)

(** ** The conflict matcher as a relation *)

Lemma haveOverlap_same_elements (a1 a1' a2 : list string) :
  (forall x, x ∈ a1 <-> x ∈ a1') -> haveOverlap a1 a2 = haveOverlap a1' a2.
Proof.
  intros Hsame. apply eq_true_iff_eq. rewrite !haveOverlap_spec.
  split; intros (x & H1 & H2); exists x; (split; [by apply Hsame|done]).
Qed.

(** X1: [haveOverlap] is symmetric, depends only on which strings occur in
    its arguments (not on their order, their repetitions or their lengths,
    which only choose the list the lookup set is built from), is false as
    soon as one list is empty, and holds of a list with itself exactly when
    the list is not empty. *)
Theorem haveOverlap_as_intersection (a1 a2 a1' a2' : list string) :
  haveOverlap a1 a2 = haveOverlap a2 a1
  /\ ((forall x, x ∈ a1 <-> x ∈ a1') -> (forall x, x ∈ a2 <-> x ∈ a2') ->
      haveOverlap a1 a2 = haveOverlap a1' a2')
  /\ haveOverlap [] a2 = false
  /\ haveOverlap a1 [] = false
  /\ (haveOverlap a1 a1 = true <-> a1 <> []).
Proof.
  split; [apply haveOverlap_sym|]. split; [|split; [|split]].
  - intros H1 H2. rewrite (haveOverlap_same_elements _ _ _ H1).
    rewrite (haveOverlap_sym a1'), (haveOverlap_same_elements _ _ _ H2).
    apply haveOverlap_sym.
  - apply not_true_is_false. rewrite haveOverlap_spec. intros (x & Hx & _). inversion Hx.
  - apply not_true_is_false. rewrite haveOverlap_spec. intros (x & _ & Hx). inversion Hx.
  - rewrite haveOverlap_spec. split.
    + intros (x & Hx & _) ->. inversion Hx.
    + destruct a1 as [|x a1]; [done|]. intros _. exists x. split; left.
Qed.

Lemma spec_conflict_sym (v e : Volume) : spec_conflict v e -> spec_conflict e v.
Proof.
  intros [(d & d' & H1 & H2 & Hn & Hro)|[(d & d' & H1 & H2 & Hn)
         |[(d & d' & H1 & H2 & Hn & Hro)|(d & d' & H1 & H2 & (m & Hm1 & Hm2) & Hp & Hi & Hro)]]].
  - left. exists d', d. repeat (split; [done|]). tauto.
  - right. left. by exists d', d.
  - right. right. left. exists d', d. repeat (split; [done|]). tauto.
  - right. right. right. exists d', d. repeat (split; [done|]).
    split; [by exists m|]. repeat (split; [done|]). tauto.
Qed.

Lemma spec_conflict_relevant (v e : Volume) :
  spec_conflict v e -> conflictRelevant v /\ conflictRelevant e.
Proof.
  intros [(d & d' & H1 & H2 & _)|[(d & d' & H1 & H2 & _)
         |[(d & d' & H1 & H2 & _)|(d & d' & H1 & H2 & _)]]];
    [split; exists NetworkBlock | split; exists BlockStorageById
     | split; exists NetworkTarget | split; exists DistributedBlockImage];
    simpl; congruence.
Qed.

Lemma conflictsWithPod_sym (a b : Pod) : conflictsWithPod a b -> conflictsWithPod b a.
Proof.
  intros (v & e & Hv & _ & He & Hc). exists e, v. split; [done|].
  split; [by apply (spec_conflict_relevant v e)|]. split; [done|].
  by apply spec_conflict_sym.
Qed.

Lemma isVolumeConflict_spec (v : Volume) (pod : Pod) :
  isVolumeConflict v pod = true <-> exists e, e ∈ Volumes (Spec pod) /\ spec_conflict v e.
Proof.
  unfold isVolumeConflict. rewrite isVolumeConflict_loop_spec.
  split; intros (e & He & Hc); exists e; (split; [done|]); by apply conflictsWith_spec.
Qed.

(** X2: fitting beside one pod is symmetric.  The check of a pod A against a
    node that holds B alone gives the same answer as the check of B against
    a node that holds A alone; and some volume of A conflicts with B exactly
    when some volume of B conflicts with A. *)
Theorem satisfyVolumeConflicts_symmetric (a b : Pod) :
  satisfyVolumeConflicts a (NewNodeInfo [b]) = satisfyVolumeConflicts b (NewNodeInfo [a])
  /\ ((exists x, x ∈ Volumes (Spec a) /\ isVolumeConflict x b = true)
      <-> (exists y, y ∈ Volumes (Spec b) /\ isVolumeConflict y a = true)).
Proof.
  split.
  - destruct (satisfyVolumeConflicts a (NewNodeInfo [b])) eqn:Ha,
      (satisfyVolumeConflicts b (NewNodeInfo [a])) eqn:Hb; try reflexivity.
    + apply single_pod_node_conflict, conflictsWithPod_sym, single_pod_node_conflict in Hb.
      congruence.
    + apply single_pod_node_conflict, conflictsWithPod_sym, single_pod_node_conflict in Ha.
      congruence.
  - split; intros (x & Hx & Hc); apply isVolumeConflict_spec in Hc as (e & He & Hc);
      exists e; (split; [done|]); apply isVolumeConflict_spec; exists x;
      (split; [done|]); by apply spec_conflict_sym.
Qed.

(** X3: a pod fits a node exactly when it fits beside each resident pod
    taken alone; hence it fits every node without pods, the order of the
    resident pods does not matter, and it still fits after resident pods are
    removed. *)
Theorem satisfyVolumeConflicts_per_resident (pod : Pod) (nodeInfo smaller : NodeInfo) :
  satisfyVolumeConflicts pod nodeInfo
  = forallb (fun ev => satisfyVolumeConflicts pod (NewNodeInfo [pi_Pod ev])) (Pods nodeInfo)
  /\ satisfyVolumeConflicts pod {| Pods := [] |} = true
  /\ ((forall ev, ev ∈ Pods smaller -> ev ∈ Pods nodeInfo) ->
      satisfyVolumeConflicts pod nodeInfo = true ->
      satisfyVolumeConflicts pod smaller = true).
Proof.
  assert (Hdec : forall n,
             satisfyVolumeConflicts pod n = false
             <-> exists ev, ev ∈ Pods n /\ conflictsWithPod pod (pi_Pod ev)).
  { intros n. rewrite satisfyVolumeConflicts_spec. unfold disk_conflict, conflictsWithPod.
    split.
    - intros (v & ev & e & Hv & Hr & Hev & He & Hc). exists ev. split; [done|]. by exists v, e.
    - intros (ev & Hev & v & e & Hv & Hr & He & Hc). by exists v, ev, e. }
  split; [|split].
  - destruct (satisfyVolumeConflicts pod nodeInfo) eqn:Hs; symmetry.
    + apply forallb_forall. intros ev Hin. apply not_false_iff_true. intros Hf.
      apply single_pod_node_conflict in Hf.
      assert (Hex : exists ev, ev ∈ Pods nodeInfo /\ conflictsWithPod pod (pi_Pod ev)).
      { exists ev. split; [by apply list_elem_of_In|done]. }
      apply Hdec in Hex. congruence.
    + apply not_true_iff_false. intros Hall.
      apply Hdec in Hs as (ev & Hev & Hc).
      rewrite forallb_forall in Hall. apply single_pod_node_conflict in Hc.
      rewrite (Hall ev) in Hc; [discriminate|by apply list_elem_of_In].
  - apply not_false_iff_true. intros Hs. apply Hdec in Hs as (ev & Hev & _).
    inversion Hev.
  - intros Hsub Hfit. apply not_false_iff_true. intros Hs.
    apply Hdec in Hs as (ev & Hev & Hc).
    assert (Hex : exists ev, ev ∈ Pods nodeInfo /\ conflictsWithPod pod (pi_Pod ev)).
    { exists ev. split; [by apply Hsub|done]. }
    apply Hdec in Hex. congruence.
Qed.

(** X4: skipping the volumes that need no restrictions check loses nothing.
    Such a volume conflicts with no pod, so the pod-against-node check fails
    exactly when some volume of the pod, of any kind, conflicts with some
    resident pod. *)
Theorem needsRestrictionsCheck_skips_only_inert (v : Volume) (pod other : Pod)
    (nodeInfo : NodeInfo) :
  (needsRestrictionsCheck v = false -> isVolumeConflict v other = false)
  /\ (satisfyVolumeConflicts pod nodeInfo = false
      <-> exists x ev, x ∈ Volumes (Spec pod) /\ ev ∈ Pods nodeInfo
                       /\ isVolumeConflict x (pi_Pod ev) = true).
Proof.
  split.
  - intros Hn. apply not_true_iff_false. intros Hc.
    apply isVolumeConflict_spec in Hc as (e & _ & Hc).
    apply spec_conflict_relevant in Hc as [Hr _].
    apply needsRestrictionsCheck_spec in Hr. congruence.
  - rewrite satisfyVolumeConflicts_spec. unfold disk_conflict. split.
    + intros (x & ev & e & Hx & _ & Hev & He & Hc). exists x, ev.
      repeat (split; [done|]). apply isVolumeConflict_spec. by exists e.
    + intros (x & ev & Hx & Hev & Hc). apply isVolumeConflict_spec in Hc as (e & He & Hc).
      exists x, ev, e. split; [done|]. split; [by apply (spec_conflict_relevant x e)|done].
Qed.

(** ** What the hooks and Filter leave untouched *)

Lemma conflictingPVCRefCountForPod_loop_pure (s : option loc) (vols : list Volume) :
  forall conflicts σ n σ',
    conflictingPVCRefCountForPod_loop s vols conflicts σ = Some (n, σ') -> σ' = σ.
Proof.
  induction vols as [|v vols IH]; intros conflicts σ n σ' Hrun; simpl in Hrun.
  - by injection Hrun as _ <-.
  - destruct (PersistentVolumeClaim v) as [src|]; [|by eapply IH].
    unfold bind, deref_state, deref_set in Hrun.
    destruct s as [l|]; [|discriminate Hrun].
    destruct (stateObjs σ !! l) as [st|]; [|discriminate Hrun].
    destruct (readWriteOncePodPVCs st) as [r|].
    + destruct (setObjs σ !! r) as [pvcs|]; [|discriminate Hrun].
      destruct (sets_Has pvcs (ClaimName src)); by eapply IH.
    + destruct (sets_Has ∅ (ClaimName src)); by eapply IH.
Qed.

(** What one call of [updateWithPod] may change: the counter of the entry it
    is called on, and nothing else. *)
Lemma updateWithPod_frame (s : option loc) (podInfo : PodInfo) (multiplier : Z)
    (σ σ' : Store) :
  updateWithPod s podInfo multiplier σ = Some (tt, σ') ->
  exists l st c,
    s = Some l /\ stateObjs σ !! l = Some st /\ σ' = setCount σ l st c.
Proof.
  unfold updateWithPod, bind. intros Hrun.
  destruct (conflictingPVCRefCountForPod s podInfo σ) as [[n σ1]|] eqn:Hn;
    [|discriminate Hrun].
  apply conflictingPVCRefCountForPod_loop_pure in Hn as ->.
  unfold deref_state, store_count in Hrun.
  destruct s as [l|]; [|discriminate Hrun].
  destruct (stateObjs σ !! l) as [st|] eqn:Hl; [|discriminate Hrun].
  simpl in Hrun. rewrite Hl in Hrun. injection Hrun as <-. by eexists _, _, _.
Qed.

Lemma hook_frame (cycleState : CycleState) (podInfo : PodInfo) (multiplier : Z)
    (σ σ' : Store) (status : Status) :
  match getPreFilterState cycleState with
  | inr err => ret (AsStatus err)
  | inl state => bind (updateWithPod state podInfo multiplier) (fun _ => ret None)
  end σ = Some (status, σ') ->
  setObjs σ' = setObjs σ
  /\ (forall l, match stateObjs σ !! l with
                | None => stateObjs σ' !! l = None
                | Some st =>
                    exists c, stateObjs σ' !! l
                              = Some {| readWriteOncePodPVCs := readWriteOncePodPVCs st;
                                        conflictingPVCRefCount := c |}
                              /\ (getPreFilterState cycleState <> inl (Some l) ->
                                  c = conflictingPVCRefCount st)
                end)
  /\ (status = None \/ exists e, getPreFilterState cycleState = inr e
                                 /\ status = AsStatus e /\ σ' = σ).
Proof.
  destruct (getPreFilterState cycleState) as [state|e] eqn:Hget.
  - unfold bind, ret. intros Hrun.
    destruct (updateWithPod state podInfo multiplier σ) as [[[] σ1]|] eqn:Hup;
      [|discriminate Hrun].
    injection Hrun as <- <-.
    apply updateWithPod_frame in Hup as (l & st & c & -> & Hl & ->).
    split; [reflexivity|]. split; [|by left].
    intros l'. simpl. destruct (decide (l = l')) as [<-|Hne].
    + rewrite Hl, lookup_insert_eq. exists c. split; [done|]. by intros [].
    + rewrite lookup_insert_ne by done.
      destruct (stateObjs σ !! l') as [st'|]; [|done].
      exists (conflictingPVCRefCount st'). by destruct st'.
  - intros [= <- <-]. split; [reflexivity|]. split; [|right; by exists e].
    intros l. destruct (stateObjs σ !! l) as [st|]; [|done].
    exists (conflictingPVCRefCount st). by destruct st.
Qed.

(** X5: [AddPod] and [RemovePod] change nothing but one counter.  Whenever
    either returns, the sets of the store are as before, no entry appears or
    disappears, every entry keeps its set reference, and every entry other
    than the one written under the plugin's key keeps its counter; and when
    they return an error status (no usable entry under the key), the store
    is unchanged altogether. *)
Theorem AddPod_RemovePod_frame (pl : VolumeRestrictions) (cycleState : CycleState)
    (podToSchedule : Pod) (podInfo : PodInfo) (nodeInfo : NodeInfo) (σ σ' : Store)
    (status : Status) :
  AddPod pl cycleState podToSchedule podInfo nodeInfo σ = Some (status, σ')
  \/ RemovePod pl cycleState podToSchedule podInfo nodeInfo σ = Some (status, σ') ->
  setObjs σ' = setObjs σ
  /\ (forall l, match stateObjs σ !! l with
                | None => stateObjs σ' !! l = None
                | Some st =>
                    exists c, stateObjs σ' !! l
                              = Some {| readWriteOncePodPVCs := readWriteOncePodPVCs st;
                                        conflictingPVCRefCount := c |}
                              /\ (getPreFilterState cycleState <> inl (Some l) ->
                                  c = conflictingPVCRefCount st)
                end)
  /\ (status = None \/ exists e, getPreFilterState cycleState = inr e
                                 /\ status = AsStatus e /\ σ' = σ).
Proof.
  intros [Hrun|Hrun]; [apply (hook_frame _ podInfo 1)|apply (hook_frame _ podInfo (-1))];
    exact Hrun.
Qed.

(** On the example store, [AddPod] for the pod that mounts [c1]. *)
Lemma AddPod_RemovePod_frame_witness :
  AddPod Examples.emptyCluster Examples.entryCycleState Examples.claimant Examples.holder
    Examples.emptyNode Examples.entryStore
  = Some (None, setCount Examples.entryStore 1%positive Examples.entryState 1)
  /\ setObjs (setCount Examples.entryStore 1%positive Examples.entryState 1)
     = setObjs Examples.entryStore.
Proof.
  assert (Hrun : AddPod Examples.emptyCluster Examples.entryCycleState Examples.claimant
                   Examples.holder Examples.emptyNode Examples.entryStore
                 = Some (None, setCount Examples.entryStore 1%positive Examples.entryState 1))
    by (vm_compute; reflexivity).
  split; [exact Hrun|].
  exact (proj1 (AddPod_RemovePod_frame Examples.emptyCluster Examples.entryCycleState
                  Examples.claimant Examples.holder Examples.emptyNode Examples.entryStore
                  _ None (or_introl Hrun))).
Defined.

(** X6: Filter only reads.  Whenever it returns, the store is the one it was
    given, and its status does not depend on the claim store or on the
    usage index the plugin holds. *)
Theorem Filter_read_only (pl pl' : VolumeRestrictions) (cycleState : CycleState)
    (pod : Pod) (nodeInfo : NodeInfo) (σ : Store) :
  (forall status σ',
      Filter pl cycleState pod nodeInfo σ = Some (status, σ') -> σ' = σ)
  /\ Filter pl cycleState pod nodeInfo σ = Filter pl' cycleState pod nodeInfo σ.
Proof.
  split; [|reflexivity]. intros status σ'. unfold Filter.
  destruct (negb (satisfyVolumeConflicts pod nodeInfo)); [by intros [= _ <-]|].
  destruct (getPreFilterState cycleState) as [[l|]|e]; try by intros [= _ <-].
  unfold satisfyReadWriteOncePod, bind, deref_state.
  destruct (stateObjs σ !! l) as [st|]; [|discriminate].
  case_bool_decide; by intros [= _ <-].
Qed.

(** ** Simulations *)

Lemma matchCount_unrelated (content : gset string) (pod : Pod) :
  (forall v src, v ∈ Volumes (Spec pod) -> PersistentVolumeClaim v = Some src ->
                 ClaimName src ∉ content) ->
  matchCount content pod = 0.
Proof.
  unfold matchCount. intros Hun.
  induction (Volumes (Spec pod)) as [|v vols IH]; [reflexivity|]. simpl.
  assert (Hv : namesClaimIn content v = false).
  { unfold namesClaimIn. destruct (PersistentVolumeClaim v) as [src|] eqn:Hsrc; [|done].
    apply bool_decide_eq_false_2. apply (Hun v src); [left|done]. }
  rewrite Hv. apply IH. intros v' src' Hin. apply Hun. by right.
Qed.

(** X7: a pod that mounts none of the entry's exclusive claims does not
    count.  On every cache entry whose counter is an [int], [updateWithPod]
    for such a pod returns and leaves the store as it was, whatever the
    multiplier; so do [AddPod] and [RemovePod]. *)
Theorem updateWithPod_unrelated_pod (pl : VolumeRestrictions) (cycleState : CycleState)
    (podToSchedule : Pod) (nodeInfo : NodeInfo) (σ : Store) (l : loc)
    (st : preFilterState) (content : gset string) (X : PodInfo) (multiplier : Z) :
  entry_at σ l st content ->
  GoInt.in_range (conflictingPVCRefCount st) ->
  (forall v src, v ∈ Volumes (Spec (pi_Pod X)) -> PersistentVolumeClaim v = Some src ->
                 ClaimName src ∉ content) ->
  updateWithPod (Some l) X multiplier σ = Some (tt, σ)
  /\ (cycleState !! preFilterStateKey = Some (PreFilterStateData (Some l)) ->
      AddPod pl cycleState podToSchedule X nodeInfo σ = Some (None, σ)
      /\ RemovePod pl cycleState podToSchedule X nodeInfo σ = Some (None, σ)).
Proof.
  intros He Hr Hun. pose proof (matchCount_unrelated _ _ Hun) as Hm.
  pose proof He as [Hl _].
  assert (Hsame : forall z, z = 0 ->
             setCount σ l st (GoInt.wrap (conflictingPVCRefCount st + z)) = σ).
  { intros z ->. rewrite Z.add_0_r, (wrap_id _ Hr). by apply setCount_id. }
  split; [|intros Hcs; split].
  - rewrite (updateWithPod_spec _ _ _ _ _ _ He), Hsame; [done|]. rewrite Hm. lia.
  - rewrite (AddPod_spec _ _ _ _ _ _ _ _ _ Hcs He), Hsame; done.
  - rewrite (RemovePod_spec _ _ _ _ _ _ _ _ _ Hcs He).
    replace (conflictingPVCRefCount st - matchCount content (pi_Pod X))
      with (conflictingPVCRefCount st + 0) by lia.
    by rewrite Hsame.
Qed.

(** On the example store, a pod that mounts a disk only. *)
Lemma updateWithPod_unrelated_pod_witness :
  updateWithPod (Some 1%positive) {| pi_Pod := Examples.diskUser |} 1 Examples.entryStore
  = Some (tt, Examples.entryStore).
Proof.
  refine (proj1 (updateWithPod_unrelated_pod Examples.emptyCluster Examples.entryCycleState
                   Examples.claimant Examples.emptyNode Examples.entryStore 1%positive
                   Examples.entryState {[ "c1" ]} {| pi_Pod := Examples.diskUser |} 1
                   entryStore_entry in_range_0 _)).
  intros v src Hv Hsrc. apply list_elem_of_singleton in Hv as ->. discriminate Hsrc.
Defined.

(** The store a simulation leaves, in full. *)
Lemma runOps_store (pl : VolumeRestrictions) (cycleState : CycleState) (podToSchedule : Pod)
    (nodeInfo : NodeInfo) (l : loc) (content : gset string) (ops : list Op) :
  cycleState !! preFilterStateKey = Some (PreFilterStateData (Some l)) ->
  forall (σ : Store) (st : preFilterState),
    entry_at σ l st content ->
    GoInt.in_range (conflictingPVCRefCount st) ->
    runOps pl cycleState podToSchedule nodeInfo ops σ
    = Some (replicate (length ops) None,
            setCount σ l st (GoInt.wrap (conflictingPVCRefCount st
                                         + signedMatches content ops))).
Proof.
  intros Hcs. induction ops as [|op ops IH]; intros σ st He Hr; simpl.
  - rewrite Z.add_0_r, (wrap_id _ Hr), setCount_id; [done|apply He].
  - unfold bind at 1.
    assert (Hstep : forall m,
               runOps pl cycleState podToSchedule nodeInfo ops
                 (setCount σ l st (GoInt.wrap (conflictingPVCRefCount st + m)))
               = Some (replicate (length ops) None,
                       setCount σ l st
                         (GoInt.wrap (conflictingPVCRefCount st
                                      + (m + signedMatches content ops))))).
    { intros m.
      rewrite (IH _ _ (entry_at_setCount _ _ _ _ _ He) (wrap_in_range _)).
      simpl conflictingPVCRefCount. rewrite setCount_setCount by reflexivity.
      rewrite wrap_add_l. by rewrite Z.add_assoc. }
    destruct op as [podInfo|podInfo].
    + rewrite (AddPod_spec _ _ _ _ _ _ _ _ _ Hcs He). unfold bind.
      by rewrite Hstep.
    + rewrite (RemovePod_spec _ _ _ _ _ _ _ _ _ Hcs He). unfold bind.
      replace (conflictingPVCRefCount st - matchCount content (pi_Pod podInfo))
        with (conflictingPVCRefCount st + - matchCount content (pi_Pod podInfo)) by lia.
      by rewrite Hstep.
Qed.

Lemma signedMatches_app (content : gset string) (ops1 ops2 : list Op) :
  signedMatches content (ops1 ++ ops2)
  = signedMatches content ops1 + signedMatches content ops2.
Proof.
  induction ops1 as [|[p|p] ops1 IH]; simpl; [reflexivity| |]; rewrite IH; lia.
Qed.

Lemma signedMatches_Permutation (content : gset string) (ops ops' : list Op) :
  ops ≡ₚ ops' -> signedMatches content ops = signedMatches content ops'.
Proof.
  induction 1 as [|op ops ops' _ IH|op1 op2 ops|ops1 ops2 ops3 _ IH1 _ IH2]; simpl.
  - reflexivity.
  - destruct op; lia.
  - destruct op1, op2; lia.
  - congruence.
Qed.

(** X8: the order of a simulation does not matter.  On a cache entry written
    under the plugin's key, whose counter is an [int], two sequences of
    [AddPod] and [RemovePod] calls that are rearrangements of one another
    both succeed at every step and leave the same store. *)
Theorem runOps_order_irrelevant (pl : VolumeRestrictions) (cycleState : CycleState)
    (podToSchedule : Pod) (nodeInfo : NodeInfo) (σ : Store) (l : loc)
    (st : preFilterState) (content : gset string) (ops ops' : list Op) :
  cycleState !! preFilterStateKey = Some (PreFilterStateData (Some l)) ->
  entry_at σ l st content ->
  GoInt.in_range (conflictingPVCRefCount st) ->
  ops ≡ₚ ops' ->
  exists σ',
    runOps pl cycleState podToSchedule nodeInfo ops σ
    = Some (replicate (length ops) None, σ')
    /\ runOps pl cycleState podToSchedule nodeInfo ops' σ
       = Some (replicate (length ops') None, σ').
Proof.
  intros Hcs He Hr Hperm. eexists. split; [by apply runOps_store|].
  rewrite (runOps_store _ _ _ _ _ _ _ Hcs _ _ He Hr).
  by rewrite (signedMatches_Permutation _ _ _ Hperm).
Qed.

(** On the example store: add then remove, and remove then add. *)
Lemma runOps_order_irrelevant_witness :
  exists σ',
    runOps Examples.emptyCluster Examples.entryCycleState Examples.claimant
      Examples.emptyNode [OpAddPod Examples.holder; OpRemovePod Examples.holder]
      Examples.entryStore
    = Some ([None; None], σ')
    /\ runOps Examples.emptyCluster Examples.entryCycleState Examples.claimant
         Examples.emptyNode [OpRemovePod Examples.holder; OpAddPod Examples.holder]
         Examples.entryStore
       = Some ([None; None], σ').
Proof.
  exact (runOps_order_irrelevant Examples.emptyCluster Examples.entryCycleState
           Examples.claimant Examples.emptyNode Examples.entryStore 1%positive
           Examples.entryState {[ "c1" ]}
           [OpAddPod Examples.holder; OpRemovePod Examples.holder]
           [OpRemovePod Examples.holder; OpAddPod Examples.holder]
           eq_refl entryStore_entry in_range_0
           (Permutation_swap (OpRemovePod Examples.holder) (OpAddPod Examples.holder) [])).
Defined.

Lemma signedMatches_removes (content : gset string) (xs : list PodInfo) :
  signedMatches content (map OpRemovePod xs)
  = - signedMatches content (map OpAddPod xs).
Proof. induction xs as [|x xs IH]; simpl; [reflexivity|]. rewrite IH. lia. Qed.

(** X9: removing pods and adding the same pods back, in any order, restores
    the store.  On a cache entry written under the plugin's key, whose
    counter is an [int], the [RemovePod] calls for a list of pods followed by
    the [AddPod] calls for a rearrangement of that list all succeed and leave
    the store exactly as it was. *)
Theorem remove_then_add_back (pl : VolumeRestrictions) (cycleState : CycleState)
    (podToSchedule : Pod) (nodeInfo : NodeInfo) (σ : Store) (l : loc)
    (st : preFilterState) (content : gset string) (removed added : list PodInfo) :
  cycleState !! preFilterStateKey = Some (PreFilterStateData (Some l)) ->
  entry_at σ l st content ->
  GoInt.in_range (conflictingPVCRefCount st) ->
  removed ≡ₚ added ->
  runOps pl cycleState podToSchedule nodeInfo
    (map OpRemovePod removed ++ map OpAddPod added) σ
  = Some (replicate (length removed + length added) None, σ).
Proof.
  intros Hcs He Hr Hperm. rewrite (runOps_store _ _ _ _ _ _ _ Hcs _ _ He Hr).
  rewrite length_app, !length_map. do 2 f_equal.
  rewrite signedMatches_app, signedMatches_removes.
  rewrite (signedMatches_Permutation _ (map OpAddPod removed) (map OpAddPod added))
    by (by apply Permutation_map).
  replace (conflictingPVCRefCount st
           + (- signedMatches content (map OpAddPod added)
              + signedMatches content (map OpAddPod added)))
    with (conflictingPVCRefCount st) by lia.
  rewrite (wrap_id _ Hr). apply setCount_id, He.
Qed.

(** On the example store: the pod that mounts [c1] is removed and added
    back. *)
Lemma remove_then_add_back_witness :
  runOps Examples.emptyCluster Examples.entryCycleState Examples.claimant
    Examples.emptyNode
    (map OpRemovePod [Examples.holder] ++ map OpAddPod [Examples.holder])
    Examples.entryStore
  = Some (replicate (length [Examples.holder] + length [Examples.holder]) None,
          Examples.entryStore).
Proof.
  exact (remove_then_add_back Examples.emptyCluster Examples.entryCycleState
           Examples.claimant Examples.emptyNode Examples.entryStore 1%positive
           Examples.entryState {[ "c1" ]} [Examples.holder] [Examples.holder]
           eq_refl entryStore_entry in_range_0 (Permutation_refl _)).
Defined.

(** X10: the verdict after a simulation.  On a cache entry written under the
    plugin's key, when neither the counter nor the counter plus the signed
    match counts of the simulation overflows an [int], the simulation succeeds
    and Filter then rejects with the disk-conflict reason if the node check
    fails, else with the exclusive-claim reason exactly when the counter plus
    the signed match counts is positive, and admits otherwise. *)
Theorem Filter_after_simulation (pl : VolumeRestrictions) (cycleState : CycleState)
    (pod : Pod) (nodeInfo : NodeInfo) (σ : Store) (l : loc) (st : preFilterState)
    (content : gset string) (ops : list Op) :
  cycleState !! preFilterStateKey = Some (PreFilterStateData (Some l)) ->
  entry_at σ l st content ->
  GoInt.in_range (conflictingPVCRefCount st) ->
  GoInt.in_range (conflictingPVCRefCount st + signedMatches content ops) ->
  exists σ',
    runOps pl cycleState pod nodeInfo ops σ = Some (replicate (length ops) None, σ')
    /\ Filter pl cycleState pod nodeInfo σ'
       = Some (if negb (satisfyVolumeConflicts pod nodeInfo)
               then NewStatus Unschedulable [ErrReasonDiskConflict]
               else if bool_decide (0 < conflictingPVCRefCount st
                                        + signedMatches content ops)
                    then NewStatus Unschedulable [ErrReasonReadWriteOncePodConflict]
                    else None, σ').
Proof.
  intros Hcs He Hr Hsum. eexists. split; [by apply runOps_store|].
  rewrite (wrap_id _ Hsum). unfold Filter.
  destruct (negb (satisfyVolumeConflicts pod nodeInfo)); [reflexivity|].
  rewrite (getPreFilterState_present _ _ Hcs).
  rewrite (satisfyReadWriteOncePod_live l
             {| readWriteOncePodPVCs := readWriteOncePodPVCs st;
                conflictingPVCRefCount :=
                  conflictingPVCRefCount st + signedMatches content ops |});
    [reflexivity|apply lookup_insert_eq].
Qed.

(** On the example store, whose entry has the counter 0: after the pod that
    mounts [c1] is added, Filter rejects on the empty node. *)
Lemma Filter_after_simulation_witness :
  exists σ',
    runOps Examples.emptyCluster Examples.entryCycleState Examples.claimant
      Examples.emptyNode [OpAddPod Examples.holder] Examples.entryStore
    = Some ([None], σ')
    /\ Filter Examples.emptyCluster Examples.entryCycleState Examples.claimant
         Examples.emptyNode σ'
       = Some (NewStatus Unschedulable [ErrReasonReadWriteOncePodConflict], σ').
Proof.
  refine (Filter_after_simulation Examples.emptyCluster Examples.entryCycleState
            Examples.claimant Examples.emptyNode Examples.entryStore 1%positive
            Examples.entryState {[ "c1" ]} [OpAddPod Examples.holder]
            eq_refl entryStore_entry in_range_0 _).
  vm_compute. split; discriminate.
Defined.

(** ** Clone and the verdict *)

(** X11: a clone gives the verdict of the original.  When an entry is written
    under the plugin's key, cloning it returns, and Filter gives the same
    status for every pod and node whether it reads the original entry, before
    or after the cloning, or the clone written under the key in its place.
    Cloning a nil state pointer returns the nil interface and leaves the
    store as it was. *)
Theorem Clone_same_verdict (pl : VolumeRestrictions) (cycleState : CycleState)
    (σ : Store) (l : loc) (st : preFilterState) :
  cycleState !! preFilterStateKey = Some (PreFilterStateData (Some l)) ->
  stateObjs σ !! l = Some st ->
  Clone None σ = Some (StateDataNil, σ)
  /\ exists clone σ',
      Clone (Some l) σ = Some (clone, σ')
      /\ forall pod nodeInfo,
          exists status,
            Filter pl cycleState pod nodeInfo σ = Some (status, σ)
            /\ Filter pl cycleState pod nodeInfo σ' = Some (status, σ')
            /\ Filter pl (CycleState_Write cycleState preFilterStateKey clone)
                 pod nodeInfo σ'
               = Some (status, σ').
Proof.
  intros Hcs Hl. split; [reflexivity|].
  pose proof (fresh_state_loc σ) as Hfresh.
  eexists _, _. split; [by apply Clone_spec|].
  intros pod nodeInfo. unfold Filter.
  destruct (negb (satisfyVolumeConflicts pod nodeInfo)); [by eexists|].
  rewrite (getPreFilterState_present _ _ Hcs).
  assert (Hnew : getPreFilterState
                   (CycleState_Write cycleState preFilterStateKey
                      (PreFilterStateData (Some (fresh (dom (stateObjs σ))))))
                 = inl (Some (fresh (dom (stateObjs σ))))).
  { apply getPreFilterState_present. apply lookup_insert_eq. }
  rewrite Hnew.
  eexists. split; [by apply satisfyReadWriteOncePod_live|]. split.
  - apply satisfyReadWriteOncePod_live. simpl. rewrite lookup_insert_ne; [done|].
    intros Heq. rewrite Heq in Hfresh. congruence.
  - apply satisfyReadWriteOncePod_live. simpl. apply lookup_insert_eq.
Qed.

(** The entry of the example store is cloned. *)
Lemma Clone_same_verdict_witness :
  Clone None Examples.entryStore = Some (StateDataNil, Examples.entryStore)
  /\ exists clone σ',
      Clone (Some 1%positive) Examples.entryStore = Some (clone, σ')
      /\ forall pod nodeInfo,
          exists status,
            Filter Examples.emptyCluster Examples.entryCycleState pod nodeInfo
              Examples.entryStore
            = Some (status, Examples.entryStore)
            /\ Filter Examples.emptyCluster Examples.entryCycleState pod nodeInfo σ'
               = Some (status, σ')
            /\ Filter Examples.emptyCluster
                 (CycleState_Write Examples.entryCycleState preFilterStateKey clone)
                 pod nodeInfo σ'
               = Some (status, σ').
Proof.
  exact (Clone_same_verdict Examples.emptyCluster Examples.entryCycleState
           Examples.entryStore 1%positive Examples.entryState eq_refl eq_refl).
Defined.

(** ** PreFilter and what follows it *)

Lemma preFilterStore_entry (σ : Store) (pvcs : gset string) (c : Z) :
  stateObjs (preFilterStore σ pvcs c) !! fresh (dom (stateObjs σ))
  = Some {| readWriteOncePodPVCs := Some (fresh (dom (setObjs σ)));
            conflictingPVCRefCount := c |}.
Proof. apply lookup_insert_eq. Qed.

Lemma no_relevant_volume_fits (pod : Pod) (nodeInfo : NodeInfo) :
  needsCheck_loop (Volumes (Spec pod)) = false ->
  satisfyVolumeConflicts pod nodeInfo = true.
Proof.
  intros Hn. apply not_false_iff_true. intros Hs.
  apply satisfyVolumeConflicts_spec in Hs as (v & ev & e & Hv & Hr & _).
  assert (Hex : exists v, v ∈ Volumes (Spec pod) /\ conflictRelevant v) by (by exists v).
  apply needsCheck_loop_spec in Hex. congruence.
Qed.

(** The two outcomes of [PreFilter] that are not failures. *)
Lemma PreFilter_inversion (pl : VolumeRestrictions) (cycleState cycleState' : CycleState)
    (pod : Pod) (σ σ' : Store) (status : Status) :
  PreFilter pl cycleState pod σ = Some ((status, cycleState'), σ') ->
  (exists e, readWriteOncePodPVCsForPod pl pod false = inr e
             /\ status = lookupFailureStatus e /\ cycleState' = cycleState /\ σ' = σ)
  \/ exists pvcs c,
      readWriteOncePodPVCsForPod pl pod false = inl pvcs
      /\ computedCount pl pod = Some c
      /\ σ' = preFilterStore σ pvcs c
      /\ ((needsCheck_loop (Volumes (Spec pod)) = false /\ c = 0
           /\ status = NewStatus Skip [] /\ cycleState' = cycleState)
          \/ (~ (needsCheck_loop (Volumes (Spec pod)) = false /\ c = 0)
              /\ status = None
              /\ cycleState' = <[preFilterStateKey :=
                                   PreFilterStateData (Some (fresh (dom (stateObjs σ))))]>
                                 cycleState)).
Proof.
  intros Hrun. unfold computedCount.
  destruct (readWriteOncePodPVCsForPod pl pod false) as [pvcs|e] eqn:Hres.
  - right. rewrite (PreFilter_resolved _ _ _ _ _ Hres) in Hrun. cbv zeta in Hrun.
    exists pvcs, (calPreFilterState_loop pl pod (elements pvcs) 0).
    split; [reflexivity|]. split; [reflexivity|].
    destruct (needsCheck_loop (Volumes (Spec pod))) eqn:Hn; simpl in Hrun.
    + injection Hrun as <- <- <-. split; [reflexivity|]. right.
      split; [by intros [? _]|done].
    + case_bool_decide as Hc; injection Hrun as <- <- <-; (split; [reflexivity|]).
      * by left.
      * right. split; [by intros [_ ?]|done].
  - left. rewrite (PreFilter_lookup_failure _ _ _ _ _ Hres) in Hrun.
    injection Hrun as <- <- <-. by exists e.
Qed.

(** X12: after a PreFilter that returned success, Filter never misses its
    state.  With the cycle state and the store PreFilter left, Filter returns
    on every node: the disk-conflict rejection if the node check fails, else
    the exclusive-claim rejection exactly when the counter PreFilter computed
    is positive, else admission; it never returns an error status. *)
Theorem Filter_after_PreFilter (pl : VolumeRestrictions) (cycleState cycleState' : CycleState)
    (pod : Pod) (σ σ' : Store) :
  PreFilter pl cycleState pod σ = Some ((None, cycleState'), σ') ->
  exists c,
    computedCount pl pod = Some c
    /\ forall nodeInfo,
        Filter pl cycleState' pod nodeInfo σ'
        = Some (if negb (satisfyVolumeConflicts pod nodeInfo)
                then NewStatus Unschedulable [ErrReasonDiskConflict]
                else if bool_decide (0 < c)
                     then NewStatus Unschedulable [ErrReasonReadWriteOncePodConflict]
                     else None, σ').
Proof.
  intros Hrun.
  apply PreFilter_inversion in Hrun
    as [(e & _ & Hst & _)|(pvcs & c & _ & Hc & -> & [(_ & _ & Hst & _)|(_ & _ & ->)])].
  - unfold lookupFailureStatus in Hst. destruct (IsNotFound e); discriminate Hst.
  - discriminate Hst.
  - exists c. split; [exact Hc|]. intros nodeInfo. unfold Filter.
    destruct (negb (satisfyVolumeConflicts pod nodeInfo)); [reflexivity|].
    rewrite (getPreFilterState_present _ (Some (fresh (dom (stateObjs σ)))))
      by apply lookup_insert_eq.
    by rewrite (satisfyReadWriteOncePod_live _ _ _ (preFilterStore_entry σ pvcs c)).
Qed.

(** PreFilter for the pod that mounts a disk and the free claim [c1], then
    Filter on an empty node. *)
Lemma Filter_after_PreFilter_witness :
  exists c,
    computedCount Examples.clusterWithFreeClaim Examples.claimant = Some c
    /\ forall nodeInfo,
        Filter Examples.clusterWithFreeClaim Examples.entryCycleState Examples.claimant
          nodeInfo Examples.entryStore
        = Some (if negb (satisfyVolumeConflicts Examples.claimant nodeInfo)
                then NewStatus Unschedulable [ErrReasonDiskConflict]
                else if bool_decide (0 < c)
                     then NewStatus Unschedulable [ErrReasonReadWriteOncePodConflict]
                     else None, Examples.entryStore).
Proof.
  refine (Filter_after_PreFilter Examples.clusterWithFreeClaim ∅ Examples.entryCycleState
            Examples.claimant Examples.emptyStore Examples.entryStore _).
  vm_compute. reflexivity.
Defined.

(** X13: the elision loses nothing.  When PreFilter returns the Skip outcome
    it has written nothing, the pod passes the node check on every node, the
    counter computed for it is zero, and Filter, had it been run on any node
    with the entry PreFilter built, would have admitted the pod. *)
Theorem PreFilter_skip_is_sound (pl : VolumeRestrictions) (cycleState cycleState' : CycleState)
    (pod : Pod) (σ σ' : Store) :
  PreFilter pl cycleState pod σ = Some ((NewStatus Skip [], cycleState'), σ') ->
  cycleState' = cycleState
  /\ computedCount pl pod = Some 0
  /\ exists l,
      stateObjs σ !! l = None
      /\ forall nodeInfo,
          satisfyVolumeConflicts pod nodeInfo = true
          /\ Filter pl (CycleState_Write cycleState preFilterStateKey
                          (PreFilterStateData (Some l))) pod nodeInfo σ'
             = Some (None, σ').
Proof.
  intros Hrun.
  apply PreFilter_inversion in Hrun
    as [(e & _ & Hst & _)
       |(pvcs & c & _ & Hc & -> & [(Hn & -> & _ & ->)|(_ & Hst & _)])].
  - unfold lookupFailureStatus in Hst. destruct (IsNotFound e); discriminate Hst.
  - split; [reflexivity|]. split; [exact Hc|].
    exists (fresh (dom (stateObjs σ))). split; [apply fresh_state_loc|].
    intros nodeInfo. pose proof (no_relevant_volume_fits pod nodeInfo Hn) as Hfit.
    split; [exact Hfit|]. unfold Filter. rewrite Hfit. simpl.
    rewrite (getPreFilterState_present _ (Some (fresh (dom (stateObjs σ)))))
      by apply lookup_insert_eq.
    by rewrite (satisfyReadWriteOncePod_live _ _ _ (preFilterStore_entry σ pvcs 0)).
  - discriminate Hst.
Qed.

(** PreFilter for the pod that mounts the free claim [c1] and nothing else. *)
Lemma PreFilter_skip_is_sound_witness :
  computedCount Examples.clusterWithFreeClaim Examples.podP = Some 0.
Proof.
  refine (proj1 (proj2 (PreFilter_skip_is_sound Examples.clusterWithFreeClaim ∅ ∅
                          Examples.podP Examples.emptyStore Examples.entryStore _))).
  vm_compute. reflexivity.
Defined.

(** X14: PreFilter writes under its own key only and disturbs no object.
    Whenever it returns, every other key of the cycle state reads as before,
    and every set and every entry the store held is still there, unchanged;
    and when it returns a status other than success, the cycle state is
    unchanged altogether. *)
Theorem PreFilter_frame (pl : VolumeRestrictions) (cycleState cycleState' : CycleState)
    (pod : Pod) (σ σ' : Store) (status : Status) :
  PreFilter pl cycleState pod σ = Some ((status, cycleState'), σ') ->
  (forall key, key <> preFilterStateKey -> cycleState' !! key = cycleState !! key)
  /\ (status <> None -> cycleState' = cycleState)
  /\ (forall l st, stateObjs σ !! l = Some st -> stateObjs σ' !! l = Some st)
  /\ (forall r pvcs, setObjs σ !! r = Some pvcs -> setObjs σ' !! r = Some pvcs).
Proof.
  intros Hrun.
  assert (Hstore : forall pvcs c,
             (forall l st, stateObjs σ !! l = Some st ->
                           stateObjs (preFilterStore σ pvcs c) !! l = Some st)
             /\ (forall r content, setObjs σ !! r = Some content ->
                                   setObjs (preFilterStore σ pvcs c) !! r = Some content)).
  { intros pvcs c. split.
    - intros l st Hl. simpl. rewrite lookup_insert_ne; [done|].
      intros <-. rewrite fresh_state_loc in Hl. discriminate Hl.
    - intros r content Hr. simpl. rewrite lookup_insert_ne; [done|].
      intros <-. assert (Hf : setObjs σ !! fresh (dom (setObjs σ)) = None)
        by apply not_elem_of_dom, is_fresh.
      rewrite Hf in Hr. discriminate Hr. }
  apply PreFilter_inversion in Hrun
    as [(e & _ & _ & -> & ->)
       |(pvcs & c & _ & _ & -> & [(_ & _ & _ & ->)|(_ & -> & ->)])].
  - done.
  - split; [done|]. split; [done|]. apply Hstore.
  - split; [|split; [done|apply Hstore]].
    intros key Hkey. by rewrite lookup_insert_ne.
Qed.

(** PreFilter on the example store, which already holds a set and an
    entry. *)
Lemma PreFilter_frame_witness :
  stateObjs (preFilterStore Examples.entryStore {[ "c1" ]} 0) !! 1%positive
  = Some Examples.entryState.
Proof.
  refine (proj1 (proj2 (proj2 (PreFilter_frame Examples.clusterWithFreeClaim ∅
                                 (CycleState_Write ∅ preFilterStateKey
                                    (PreFilterStateData (Some 2%positive)))
                                 Examples.claimant Examples.entryStore
                                 (preFilterStore Examples.entryStore {[ "c1" ]} 0)
                                 None _))) 1%positive Examples.entryState eq_refl).
  vm_compute. reflexivity.
Defined.

(** ** The two modes of the resolver *)

Lemma readWriteOncePodPVCsForPod_loop_modes (pl : VolumeRestrictions) (namespace : string)
    (vols : list Volume) :
  forall acc pvcs,
    readWriteOncePodPVCsForPod_loop pl namespace false vols acc = inl pvcs ->
    readWriteOncePodPVCsForPod_loop pl namespace true vols acc = inl pvcs.
Proof.
  induction vols as [|v vols IH]; intros acc pvcs Hrun; simpl in *; [done|].
  destruct (PersistentVolumeClaim v) as [src|]; [|by apply IH].
  destruct (pvcLister pl namespace (ClaimName src)) as [pvc|e]; [|discriminate Hrun].
  destruct (negb (ContainsAccessMode (AccessModes pvc) ReadWriteOncePod)); by apply IH.
Qed.

Lemma readWriteOncePodPVCsForPod_loop_no_claims (pl : VolumeRestrictions)
    (namespace : string) (ig : bool) (vols : list Volume) (acc : gset string) :
  (forall v, v ∈ vols -> PersistentVolumeClaim v = None) ->
  readWriteOncePodPVCsForPod_loop pl namespace ig vols acc = inl acc.
Proof.
  induction vols as [|v vols IH]; intros Hno; simpl; [done|].
  rewrite (Hno v) by left. apply IH. intros v' Hin. apply Hno. by right.
Qed.

(** X15: the two modes of the resolver agree where the strict one succeeds.
    When the strict resolution returns a set, the best-effort resolution
    returns the same set; so the best-effort resolution fails only when the
    strict one fails too, and then with an error that is not a not-found.
    For a pod without claim-backed volumes both return the empty set,
    whatever the claim store answers. *)
Theorem readWriteOncePodPVCsForPod_modes (pl : VolumeRestrictions) (pod : Pod) :
  (forall pvcs,
      readWriteOncePodPVCsForPod pl pod false = inl pvcs ->
      readWriteOncePodPVCsForPod pl pod true = inl pvcs)
  /\ (forall e,
         readWriteOncePodPVCsForPod pl pod true = inr e ->
         IsNotFound e = false
         /\ exists e', readWriteOncePodPVCsForPod pl pod false = inr e')
  /\ ((forall v, v ∈ Volumes (Spec pod) -> PersistentVolumeClaim v = None) ->
      forall ignoreNotFoundError,
        readWriteOncePodPVCsForPod pl pod ignoreNotFoundError = inl ∅).
Proof.
  split; [|split].
  - intros pvcs. apply readWriteOncePodPVCsForPod_loop_modes.
  - intros e He. split.
    + apply readWriteOncePodPVCsForPod_loop_err in He
        as (_ & _ & _ & _ & _ & _ & _ & Hnf & _).
      by apply Hnf.
    + destruct (readWriteOncePodPVCsForPod pl pod false) as [pvcs|e'] eqn:Hs;
        [|by exists e'].
      apply readWriteOncePodPVCsForPod_loop_modes in Hs.
      unfold readWriteOncePodPVCsForPod in He. rewrite Hs in He. discriminate He.
  - intros Hno ig. by apply readWriteOncePodPVCsForPod_loop_no_claims.
Qed.

(** ** Pods without claim-backed volumes *)

Lemma claimChange_loop_no_claims (pl : VolumeRestrictions) (namespace : string)
    (vols : list Volume) (acc : gset string) :
  (forall v, v ∈ vols -> PersistentVolumeClaim v = None) ->
  claimChange_loop pl namespace vols acc = inl acc.
Proof.
  induction vols as [|v vols IH]; intros Hno; simpl; [done|].
  rewrite (Hno v) by left. apply IH. intros v' Hin. apply Hno. by right.
Qed.

(** X16: a pod without claim-backed volumes never depends on the claim
    store.  PreFilter returns the Skip outcome if the pod has no
    conflict-relevant volume, and otherwise success with a counter of zero,
    after which Filter rejects on a node exactly when the node check fails;
    and no creation of a claim requeues the pod. *)
Theorem pod_without_claims (pl : VolumeRestrictions) (cycleState : CycleState) (pod : Pod)
    (σ : Store) :
  (forall v, v ∈ Volumes (Spec pod) -> PersistentVolumeClaim v = None) ->
  (exists status cycleState' σ',
      PreFilter pl cycleState pod σ = Some ((status, cycleState'), σ')
      /\ computedCount pl pod = Some 0
      /\ ((~ hasRelevantVolume pod /\ status = NewStatus Skip [] /\ cycleState' = cycleState)
          \/ (hasRelevantVolume pod /\ status = None
              /\ forall nodeInfo,
                  Filter pl cycleState' pod nodeInfo σ'
                  = Some (if satisfyVolumeConflicts pod nodeInfo then None
                          else NewStatus Unschedulable [ErrReasonDiskConflict], σ'))))
  /\ forall newPVC,
      isSchedulableAfterPersistentVolumeClaimChange pl pod ObjNil (ObjPVC newPVC)
      = Some (QueueSkip, None).
Proof.
  intros Hno. split.
  - assert (Hres : readWriteOncePodPVCsForPod pl pod false = inl ∅)
      by (by apply readWriteOncePodPVCsForPod_loop_no_claims).
    rewrite (PreFilter_resolved _ _ _ _ _ Hres). cbv zeta.
    unfold computedCount. rewrite Hres, elements_empty. simpl.
    destruct (needsCheck_loop (Volumes (Spec pod))) eqn:Hn; simpl.
    + eexists _, _, _. split; [reflexivity|]. split; [reflexivity|]. right.
      split; [by apply needsCheck_loop_spec|]. split; [reflexivity|].
      intros nodeInfo. unfold Filter.
      destruct (satisfyVolumeConflicts pod nodeInfo); [simpl|reflexivity].
      rewrite (getPreFilterState_present _ (Some (fresh (dom (stateObjs σ)))))
        by apply lookup_insert_eq.
      by rewrite (satisfyReadWriteOncePod_live _ _ _ (preFilterStore_entry σ ∅ 0)).
    + eexists _, _, _. split; [reflexivity|]. split; [reflexivity|]. left.
      split; [|done]. intros Hrel. apply needsCheck_loop_spec in Hrel. congruence.
  - intros newPVC.
    unfold isSchedulableAfterPersistentVolumeClaimChange. simpl.
    destruct (negb (bool_decide (pvc_Namespace newPVC = pod_Namespace pod))); [done|].
    by rewrite (claimChange_loop_no_claims _ _ _ _ Hno).
Qed.

(** The pod that mounts a disk only. *)
Lemma pod_without_claims_witness :
  isSchedulableAfterPersistentVolumeClaimChange Examples.emptyCluster Examples.diskUser
    ObjNil (ObjPVC Examples.claimC1)
  = Some (QueueSkip, None).
Proof.
  refine (proj2 (pod_without_claims Examples.emptyCluster ∅ Examples.diskUser
                   Examples.emptyStore _) Examples.claimC1).
  intros v Hv. apply list_elem_of_singleton in Hv as ->. reflexivity.
Defined.

(** ** The pod-deletion predicate and Filter *)

Lemma afterPodDeleted_resolved (pl : VolumeRestrictions) (pod deletedPod : Pod)
    (newPodPvcs deletedPodPvcs : gset string) :
  pod_Namespace deletedPod = pod_Namespace pod ->
  readWriteOncePodPVCsForPod pl pod false = inl newPodPvcs ->
  readWriteOncePodPVCsForPod pl deletedPod true = inl deletedPodPvcs ->
  afterPodDeleted pl pod deletedPod
  = Some (if sharesPVC_loop (elements deletedPodPvcs) newPodPvcs then (Queue, None)
          else if satisfyVolumeConflicts pod (NewNodeInfo [deletedPod])
               then (QueueSkip, None) else (Queue, None)).
Proof.
  intros Hns HP HD. unfold afterPodDeleted, isSchedulableAfterPodDeleted. simpl.
  rewrite bool_decide_eq_true_2 by done. simpl. rewrite HP, HD.
  destruct (sharesPVC_loop (elements deletedPodPvcs) newPodPvcs); [done|].
  by destruct (satisfyVolumeConflicts pod (NewNodeInfo [deletedPod])).
Qed.

(** X17: the pod-deletion predicate requeues without an error only for a
    reason.  When it returns requeue and no error, the deleted pod is in the
    blocked pod's namespace and either an exclusive claim is in both
    resolved sets or a conflict-relevant volume of the blocked pod conflicts
    with a volume of the deleted pod; in particular the deletion of a pod
    without volumes never does. *)
Theorem afterPodDeleted_requeue_has_reason (pl : VolumeRestrictions) (pod deletedPod : Pod) :
  (afterPodDeleted pl pod deletedPod = Some (Queue, None) ->
   pod_Namespace deletedPod = pod_Namespace pod
   /\ ((exists newPodPvcs deletedPodPvcs,
           readWriteOncePodPVCsForPod pl pod false = inl newPodPvcs
           /\ readWriteOncePodPVCsForPod pl deletedPod true = inl deletedPodPvcs
           /\ shareClaim newPodPvcs deletedPodPvcs)
       \/ conflictsWithPod pod deletedPod))
  /\ (Volumes (Spec deletedPod) = [] ->
      afterPodDeleted pl pod deletedPod <> Some (Queue, None)).
Proof.
  assert (Hmain : afterPodDeleted pl pod deletedPod = Some (Queue, None) ->
                  pod_Namespace deletedPod = pod_Namespace pod
                  /\ ((exists newPodPvcs deletedPodPvcs,
                          readWriteOncePodPVCsForPod pl pod false = inl newPodPvcs
                          /\ readWriteOncePodPVCsForPod pl deletedPod true = inl deletedPodPvcs
                          /\ shareClaim newPodPvcs deletedPodPvcs)
                      \/ conflictsWithPod pod deletedPod)).
  { destruct (decide (pod_Namespace deletedPod = pod_Namespace pod)) as [Hns|Hns].
    - intros Hrun. split; [exact Hns|].
      destruct (readWriteOncePodPVCsForPod pl pod false) as [newPodPvcs|e] eqn:HP.
      + destruct (readWriteOncePodPVCsForPod pl deletedPod true) as [deletedPodPvcs|e] eqn:HD.
        * rewrite (afterPodDeleted_resolved _ _ _ _ _ Hns HP HD) in Hrun.
          destruct (sharesPVC_loop (elements deletedPodPvcs) newPodPvcs) eqn:Hsh.
          -- left. exists newPodPvcs, deletedPodPvcs. by apply sharesPVC_spec in Hsh.
          -- right. apply single_pod_node_conflict.
             destruct (satisfyVolumeConflicts pod (NewNodeInfo [deletedPod]));
               [discriminate Hrun|reflexivity].
        * exfalso. unfold afterPodDeleted, isSchedulableAfterPodDeleted in Hrun.
          simpl in Hrun. rewrite bool_decide_eq_true_2 in Hrun by done. simpl in Hrun.
          rewrite HP, HD in Hrun. discriminate Hrun.
      + exfalso. unfold afterPodDeleted, isSchedulableAfterPodDeleted in Hrun.
        simpl in Hrun. rewrite bool_decide_eq_true_2 in Hrun by done. simpl in Hrun.
        rewrite HP in Hrun. destruct (IsNotFound e); discriminate Hrun.
    - intros Hrun. exfalso. unfold afterPodDeleted, isSchedulableAfterPodDeleted in Hrun.
      simpl in Hrun. rewrite bool_decide_eq_false_2 in Hrun by done. discriminate Hrun. }
  split; [exact Hmain|].
  intros Hempty Hrun. destruct (Hmain Hrun) as [_ [(Pp & Dp & _ & HD & x & _ & Hx)|Hc]].
  - unfold readWriteOncePodPVCsForPod in HD. rewrite Hempty in HD. simpl in HD.
    injection HD as <-. set_solver.
  - destruct Hc as (v & e & _ & _ & He & _). rewrite Hempty in He. inversion He.
Qed.

(** X18: the deletion of a pod that blocked Filter requeues.  When Filter
    rejects the pod with the disk-conflict reason on a node that holds the
    deleted pod alone, the two pods share a namespace, and the resolutions of
    their exclusive claims succeed, the pod-deletion predicate returns
    requeue without an error. *)
Theorem deleted_blocker_requeues (pl : VolumeRestrictions) (cycleState : CycleState)
    (pod deletedPod : Pod) (σ : Store) (newPodPvcs deletedPodPvcs : gset string) :
  pod_Namespace deletedPod = pod_Namespace pod ->
  readWriteOncePodPVCsForPod pl pod false = inl newPodPvcs ->
  readWriteOncePodPVCsForPod pl deletedPod true = inl deletedPodPvcs ->
  Filter pl cycleState pod (NewNodeInfo [deletedPod]) σ
  = Some (NewStatus Unschedulable [ErrReasonDiskConflict], σ) ->
  afterPodDeleted pl pod deletedPod = Some (Queue, None).
Proof.
  intros Hns HP HD HF. rewrite (afterPodDeleted_resolved _ _ _ _ _ Hns HP HD).
  destruct (sharesPVC_loop (elements deletedPodPvcs) newPodPvcs); [reflexivity|].
  destruct (satisfyVolumeConflicts pod (NewNodeInfo [deletedPod])) eqn:Hs; [|reflexivity].
  exfalso. unfold Filter in HF. rewrite Hs in HF. simpl in HF.
  destruct (getPreFilterState cycleState) as [[l|]|e]; [| |discriminate HF].
  - unfold satisfyReadWriteOncePod, bind, deref_state in HF.
    destruct (stateObjs σ !! l) as [st|]; [|discriminate HF].
    case_bool_decide; discriminate HF.
  - discriminate HF.
Qed.

(** Two pods that mount the disk [d] read-write. *)
Lemma deleted_blocker_requeues_witness :
  afterPodDeleted Examples.emptyCluster Examples.diskUser Examples.otherDiskUser
  = Some (Queue, None).
Proof.
  refine (deleted_blocker_requeues Examples.emptyCluster ∅ Examples.diskUser
            Examples.otherDiskUser Examples.emptyStore ∅ ∅ eq_refl eq_refl eq_refl _).
  vm_compute. reflexivity.
Defined.

(** X19: the deletion of a pod that held a shared exclusive claim requeues.
    With a coherent claim store, when the two pods share a namespace, the
    resolutions of their exclusive claims succeed, and both mount one claim
    whose access modes contain the exclusive mode, the pod-deletion predicate
    returns requeue without an error. *)
Theorem deleted_holder_requeues (pl : VolumeRestrictions) (pod deletedPod : Pod)
    (newPodPvcs deletedPodPvcs : gset string) (name : string)
    (pvc : PersistentVolumeClaimObject) :
  lister_coherent pl ->
  pod_Namespace deletedPod = pod_Namespace pod ->
  readWriteOncePodPVCsForPod pl pod false = inl newPodPvcs ->
  readWriteOncePodPVCsForPod pl deletedPod true = inl deletedPodPvcs ->
  referencesClaim pod name ->
  referencesClaim deletedPod name ->
  pvcLister pl (pod_Namespace pod) name = inl pvc ->
  ReadWriteOncePod ∈ AccessModes pvc ->
  afterPodDeleted pl pod deletedPod = Some (Queue, None).
Proof.
  intros Hcoh Hns HP HD (v & Hv & Hsrc) (v' & Hv' & Hsrc') Hget Hmode.
  rewrite (afterPodDeleted_resolved _ _ _ _ _ Hns HP HD).
  assert (Hshare : shareClaim newPodPvcs deletedPodPvcs).
  { exists name. split.
    - apply (readWriteOncePodPVCsForPod_loop_ok _ _ _ _ _ _ HP). right.
      exists v, {| ClaimName := name |}, pvc. repeat (split; [done|]).
      by apply (Hcoh _ _ _ Hget).
    - apply (readWriteOncePodPVCsForPod_loop_ok _ _ _ _ _ _ HD). right.
      exists v', {| ClaimName := name |}, pvc. rewrite Hns. repeat (split; [done|]).
      by apply (Hcoh _ _ _ Hget). }
  apply sharesPVC_spec in Hshare. by rewrite Hshare.
Qed.

(** The pod that mounts [c1] and the deleted pod that held it. *)
Lemma deleted_holder_requeues_witness :
  afterPodDeleted Examples.clusterWithFreeClaim Examples.podP (pi_Pod Examples.holder)
  = Some (Queue, None).
Proof.
  refine (deleted_holder_requeues Examples.clusterWithFreeClaim Examples.podP
            (pi_Pod Examples.holder) {[ "c1" ]} {[ "c1" ]} "c1" Examples.claimC1
            clusterWithFreeClaim_coherent eq_refl _ _ _ _ eq_refl _).
  - vm_compute. reflexivity.
  - vm_compute. reflexivity.
  - exists (Examples.claimVolume "data" "c1"). split; [left|reflexivity].
  - exists (Examples.claimVolume "data" "c1"). split; [left|reflexivity].
  - left.
Defined.

(** ** What the counter of PreFilter means *)





